(** * hachoir: TrueType font parser and fragment groups

    A shallow embedding of
    - [hachoir_parser/misc/ttf.py] (the TrueType root parser, its table
      directory, the font-header and name-table sub-parsers), and
    - [hachoir/field/fragment.py] (FragmentGroup / CustomFragment),
    together with the part of the field-tree engine these two files call
    (field production with a forward-only bit cursor, seeking with padding,
    value decoding from the input stream, the diagnostic log).

    Generators ([createFields], [parseFontHeader], [parseNames]) are
    written in a small state-and-error monad over the state of the field
    set being produced; a raised exception keeps the fields produced so
    far. *)

From Stdlib Require Import ZArith String Ascii Strings.Byte Lia Sorted Permutation.
From stdpp Require Import base option list gmap strings pretty.

Local Open Scope Z_scope.

(** ** Input streams *)

(** The tags of a stream say how its content is to be reinterpreted. *)
Inductive TagValue :=
| TagClass (parser : string)
| TagArgs (args : gmap string string).

(** An immutable byte source; [StringInputStream(data, source, tags=tags)]
    builds one from a byte string. *)
Record InputStream := StringInputStream {
  stream_data : list byte;
  stream_source : string;
  stream_tags : list (string * TagValue)
}.

(** Size of a stream, in bits. *)
Definition stream_size (s : InputStream) : Z :=
  8 * Z.of_nat (length (stream_data s)).

(** Modelled from the spec: [InputStream.readBytes] lives in the stream
    module of the engine; "readBits(offset, count) fails with an
    out-of-bounds error past the end".  [address] is in bits.  Every read
    of this development is at a byte boundary; a byte string at an
    unaligned address is refused. *)
Definition readBytes (s : InputStream) (address nb_bytes : Z) : option (list byte) :=
  if (0 <=? address) && (address mod 8 =? 0) && (0 <=? nb_bytes)
     && (address + 8 * nb_bytes <=? stream_size s)
  then Some (take (Z.to_nat nb_bytes) (drop (Z.to_nat (address / 8)) (stream_data s)))
  else None.

(** Big-endian unsigned integer held by a byte string
    ([endian = BIG_ENDIAN] on the root parser, inherited by every field). *)
Definition uint_be (bs : list byte) : Z :=
  fold_left (fun acc b => acc * 256 + Z.of_N (Byte.to_N b)) bs 0.

(** ** Fields *)

Inductive Charset := ASCII | UTF_16_BE.

(** The two tag handlers of [Table.TAG_INFO]. *)
Inductive SubParser := ParseFontHeader | ParseNames.

(** The class of a field.  [Enum(UInt16(...), labels)] is the integer
    field itself, the label table only changes its display; descriptions
    and text handlers are display data too and are left out.  [FTable]
    remembers the directory record it was
    built from ([self.table], by the record's field name) and the
    sub-parser chosen from its tag. *)
Inductive FieldClass :=
| FUInt16 | FUInt32 | FBit | FBits | FNullBits
| FString (charset : option Charset) | FBytes | FRawBytes
| FTimestampMac32
| FPadding (null : bool)
| FTableHeader | FNameHeader
| FTable (table : string) (parser : option SubParser).

(** A produced field: its (unique) name, its bit address relative to its
    owner and its bit size. *)
Record Field := mkField {
  name : string;
  address : Z;
  size : Z;
  class : FieldClass
}.

(** ** The state of a field set under production *)

Inductive Error :=
| ParserError (msg : string)
| MissingField (key : string)
| ReadStreamError.

(** [current_size]: bits produced so far (the forward-only cursor);
    [fields]: the children in production order; [log]: the messages handed
    to [self.error], the diagnostic sink. *)
Record FieldSetState := mkState {
  current_size : Z;
  fields : list Field;
  log : list string
}.

Definition new_fieldset : FieldSetState :=
  {| current_size := 0; fields := []; log := [] |}.

(** What a field set knows about itself: the stream it reads, its
    absolute bit address in it, and its own size in bits. *)
Record FieldSetEnv := mkEnv {
  stream : InputStream;
  absolute_address : Z;
  self_size : Z
}.

Inductive Outcome (A : Type) :=
| Done (a : A) (st : FieldSetState)
| Raised (e : Error) (st : FieldSetState).
Arguments Done {A} a st.
Arguments Raised {A} e st.

Definition Gen (A : Type) : Type := FieldSetState -> Outcome A.

Definition ret {A} (a : A) : Gen A := fun st => Done a st.

Definition bind {A B} (m : Gen A) (k : A -> Gen B) : Gen B :=
  fun st => match m st with
            | Done a st' => k a st'
            | Raised e st' => Raised e st'
            end.

Definition raise {A} (e : Error) : Gen A := fun st => Raised e st.

Notation "x <- m ;; k" := (bind m (fun x => k))
  (at level 100, m at next level, right associativity).
Notation "m ;; k" := (bind m (fun _ => k))
  (at level 100, right associativity).

Definition final_state {A} (o : Outcome A) : FieldSetState :=
  match o with Done _ st => st | Raised _ st => st end.

(** *** Field names *)

(** Modelled from the spec: field naming belongs to the engine's
    field-set class; "name (unique within parent at creation time; repeated
    logical roles get an implicit sequence suffix)".  A name ending in [[]]
    is an array name: the brackets receive the number of earlier fields of
    the same array.  Any other name is kept as long as no earlier field of
    the owner bears it; a name that is taken is made an array name, so that
    a second field named "header" becomes "header[0]". *)
Definition array_base (n : string) : option string :=
  let k := String.length n in
  if String.eqb (substring (k - 2) 2 n) "[]"
  then Some (substring 0 (k - 2) n) else None.

Definition in_array (base : string) (f : Field) : bool :=
  String.prefix (base +:+ "[") (name f).

(** [base] with the next free index of its array. *)
Definition numbered (base : string) (fs : list Field) : string :=
  base +:+ "[" +:+ pretty (length (filter (fun f => in_array base f = true) fs)) +:+ "]".

Definition unique_name (n : string) (fs : list Field) : string :=
  match array_base n with
  | Some base => numbered base fs
  | None =>
      if existsb (fun f => String.eqb (name f) n) fs then numbered n fs else n
  end.

(** *** Producing and looking up fields *)

(** Modelled from the spec: what the engine does with a yielded field;
    "ordered, named composite of Fields/FieldSets, produced lazily via a
    pull-driven producer routine; owns a forward-only bit cursor".
    [yield Class(self, name, ...)]: the field is placed at the cursor,
    given its unique name, and the cursor moves past it.  The new field is
    returned so that the caller can keep it ([tables.append(table)]).
    Whether the field fits in its owner is not checked here, and what the
    engine does with a field that runs past the end of its owner is not
    part of this model: [fitting] gives the children a lookup from outside
    finds, and the statements on whole runs are made for records, tables
    and strings that lie inside their owner. *)
Definition yield (n : string) (c : FieldClass) (sz : Z) : Gen Field :=
  fun st =>
    let f := mkField (unique_name n (fields st)) (current_size st) sz c in
    Done f {| current_size := current_size st + sz;
              fields := fields st ++ [f];
              log := log st |}.

(** [self.current_size] *)
Definition get_current_size : Gen Z := fun st => Done (current_size st) st.

(** Modelled from the spec: [self.error(msg)] is the engine's logger; "a
    recoverable anomaly is reported to a diagnostic sink and the offending
    element is dropped, production continues". *)
Definition error (msg : string) : Gen unit :=
  fun st => Done tt {| current_size := current_size st;
                       fields := fields st;
                       log := log st ++ [msg] |}.

Definition lookup_field (key : string) (fs : list Field) : option Field :=
  List.find (fun f => String.eqb (name f) key) fs.

(** Modelled from the spec: "lookup by name".  [self[key]] inside a
    generator, for a field already produced. *)
Definition getitem (key : string) : Gen Field :=
  fun st => match lookup_field key (fields st) with
            | Some f => Done f st
            | None => Raised (MissingField key) st
            end.

(** Modelled from the spec: field values belong to the engine; "value
    access decodes lazily from the owner's stream at the field's fixed
    offset", "decoding beyond stream bounds fails with a bounds error".
    Raw bytes of a field of [env]'s field set. *)
Definition field_bytes (env : FieldSetEnv) (f : Field) : option (list byte) :=
  readBytes (stream env) (absolute_address env + address f) (size f / 8).

(** [field.value] for the integer classes. *)
Definition field_uint (env : FieldSetEnv) (f : Field) : option Z :=
  uint_be <$> field_bytes env f.

(** Decoding inside a generator: a read past the end of the stream is an
    exception. *)
Definition decoded {A} (v : option A) : Gen A :=
  match v with
  | Some a => ret a
  | None => raise ReadStreamError
  end.

(** [self[key].value] for an integer field. *)
Definition self_uint (env : FieldSetEnv) (key : string) : Gen Z :=
  f <- getitem key ;; decoded (field_uint env f).

(** [self[key].value] for a [Bytes] field. *)
Definition self_bytes (env : FieldSetEnv) (key : string) : Gen (list byte) :=
  f <- getitem key ;; decoded (field_bytes env f).

(** *** Seeking *)

(** Modelled from the spec: [seekBit]/[seekByte] belong to the engine's
    field-set class; "advances the cursor to target, emitting one padding
    field spanning the gap if target is ahead of current position, and
    failing if target is behind current position"; seeking to the current
    position gives no padding.  The result is the padding field to yield,
    if any; [address] is relative to the field set.  A target past the end
    of the stream is not treated apart; the statements on whole runs are
    made for targets inside the stream. *)
Definition seekBit (address : Z) (null : bool) : Gen (option (string * FieldClass * Z)) :=
  fun st =>
    let nbits := address - current_size st in
    if nbits <? 0 then Raised (ParserError "Seek error, unable to go back!") st
    else if 0 <? nbits then Done (Some ("padding[]", FPadding null, nbits)) st
    else Done None st.

Definition seekByte (address : Z) (null : bool) : Gen (option (string * FieldClass * Z)) :=
  seekBit (address * 8) null.

(** [if padding: yield padding] *)
Definition yield_if (padding : option (string * FieldClass * Z)) : Gen unit :=
  match padding with
  | Some (n, c, sz) => yield n c sz ;; ret tt
  | None => ret tt
  end.

(** *** Field constructors, as the parser writes them *)

Definition UInt16 (n : string) : Gen Field := yield n FUInt16 16.
Definition UInt32 (n : string) : Gen Field := yield n FUInt32 32.
Definition TimestampMac32 (n : string) : Gen Field := yield n FTimestampMac32 32.
Definition Bit (n : string) : Gen Field := yield n FBit 1.
Definition Bits (n : string) (nbits : Z) : Gen Field := yield n FBits nbits.
Definition NullBits (n : string) (nbits : Z) : Gen Field := yield n FNullBits nbits.
Definition Bytes (n : string) (nbytes : Z) : Gen Field := yield n FBytes (nbytes * 8).
Definition RawBytes (n : string) (nbytes : Z) : Gen Field := yield n FRawBytes (nbytes * 8).
Definition String_ (n : string) (nbytes : Z) (charset : option Charset) : Gen Field :=
  yield n (FString charset) (nbytes * 8).

(** *** Nested field sets *)

(** Modelled from the spec: nested field sets belong to the engine.  A
    field set built without an explicit size has the size of what its own
    generator produces; an exception of that generator surfaces in the
    owner. *)
Definition yield_fieldset (n : string) (c : FieldClass) (gen : Gen unit) : Gen Field :=
  match gen new_fieldset with
  | Done _ sub => yield n c (current_size sub)
  | Raised e _ => raise e
  end.

(** The environment of a child field set [f] of [env]'s field set. *)
Definition child_env (env : FieldSetEnv) (f : Field) : FieldSetEnv :=
  {| stream := stream env;
     absolute_address := absolute_address env + address f;
     self_size := size f |}.

(** [f[key]] where [f] is a child field set produced by [gen]; the child
    is taken whole, as it is when it lies inside the stream. *)
Definition child_getitem (gen : Gen unit) (key : string) : option Field :=
  lookup_field key (fields (final_state (gen new_fieldset))).

(** [f[key].value], an integer. *)
Definition child_uint (gen : Gen unit) (env : FieldSetEnv) (f : Field) (key : string) : option Z :=
  g ← child_getitem gen key; field_uint (child_env env f) g.

(** [f[key].value], a byte string. *)
Definition child_bytes (gen : Gen unit) (env : FieldSetEnv) (f : Field) (key : string)
  : option (list byte) :=
  g ← child_getitem gen key; field_bytes (child_env env f) g.

(** [for index in xrange(n): r = Class(self, name); yield r; rs.append(r)];
    the records are taken whole, as they are when they lie inside the
    stream. *)
Fixpoint read_records (n : nat) (nm : string) (c : FieldClass) (gen : Gen unit)
  : Gen (list Field) :=
  match n with
  | O => ret []
  | S n' =>
      r <- yield_fieldset nm c gen ;;
      rs <- read_records n' nm c gen ;;
      ret (r :: rs)
  end.

(** ** Sorting by a key *)

(** [list.sort(key=...)] is a stable sort on the keys, each key computed
    once, in list order, before any element moves.  A stable sort is
    determined by its specification (sorted, a permutation, equal keys keep
    their order), so insertion from the right stands for it. *)
Fixpoint insert_by_key {A} (x : Z * A) (l : list (Z * A)) : list (Z * A) :=
  match l with
  | [] => [x]
  | y :: l' => if fst x <=? fst y then x :: y :: l' else y :: insert_by_key x l'
  end.

Definition sort_by_key {A} (l : list (Z * A)) : list (Z * A) :=
  foldr insert_by_key [] l.

(** Computing the keys: the first key that cannot be decoded raises. *)
Fixpoint with_keys (key : Field -> option Z) (l : list Field) : Gen (list (Z * Field)) :=
  match l with
  | [] => ret []
  | f :: l' =>
      k <- decoded (key f) ;;
      ks <- with_keys key l' ;;
      ret ((k, f) :: ks)
  end.

(** [l.sort(key=lambda field: field["offset"].value)] *)
Definition sort_fields (key : Field -> option Z) (l : list Field) : Gen (list Field) :=
  ks <- with_keys key l ;;
  ret (map snd (sort_by_key ks)).

(** ** ttf.py *)

Definition MIN_NB_TABLE : Z := 3.
Definition MAX_NB_TABLE : Z := 30.

Module TableHeader.
Definition createFields : Gen unit :=
  String_ "tag" 4 None ;;
  UInt32 "checksum" ;;
  UInt32 "offset" ;;
  UInt32 "size" ;;
  ret tt.

(** [table[key].value] for the integer fields of a directory record. *)
Definition value (env : FieldSetEnv) (table : Field) (key : string) : option Z :=
  child_uint createFields env table key.

(** [table["tag"].value] *)
Definition tag (env : FieldSetEnv) (table : Field) : option string :=
  string_of_list_byte <$> child_bytes createFields env table "tag".
End TableHeader.

Module NameHeader.
Definition createFields : Gen unit :=
  UInt16 "platformID" ;;
  UInt16 "encodingID" ;;
  UInt16 "languageID" ;;
  UInt16 "nameID" ;;
  UInt16 "length" ;;
  UInt16 "offset" ;;
  ret tt.

Definition value (env : FieldSetEnv) (entry : Field) (key : string) : option Z :=
  child_uint createFields env entry key.

Definition getCharset (env : FieldSetEnv) (entry : Field) : option Charset :=
  platformID ← value env entry "platformID";
  if platformID =? 3
  then encodingID ← value env entry "encodingID";
       Some (if encodingID =? 1 then UTF_16_BE else ASCII)
  else Some ASCII.
End NameHeader.

(** The 4-byte magic constant of the font header, [\x5F\x0F\x3C\xF5]. *)
Definition FONT_HEADER_MAGIC : list byte := [x5f; x0f; x3c; xf5].

#[global] Instance byte_eq_decision : EqDecision byte := Byte.byte_eq_dec.

(** [==] on byte strings. *)
Definition bytes_eqb (a b : list byte) : bool :=
  bool_decide (a = b).

Definition parseFontHeader (env : FieldSetEnv) : Gen unit :=
  UInt16 "maj_ver" ;;
  UInt16 "min_ver" ;;
  UInt16 "font_maj_ver" ;;
  UInt16 "font_min_ver" ;;
  UInt32 "checksum" ;;
  Bytes "magic" 4 ;;
  magic <- self_bytes env "magic" ;;
  if negb (bytes_eqb magic FONT_HEADER_MAGIC)
  then raise (ParserError "TTF: invalid magic of font header")
  else
  (* Flags *)
  Bit "y0" ;;
  Bit "x0" ;;
  Bit "instr_point" ;;
  Bit "ppem" ;;
  Bit "instr_width" ;;
  Bit "vertical" ;;
  NullBits "reserved[]" 1 ;;
  Bit "linguistic" ;;
  Bit "gx" ;;
  Bit "strong" ;;
  Bit "indic" ;;
  Bit "lossless" ;;
  Bit "converted" ;;
  Bit "cleartype" ;;
  Bits "adobe" 2 ;;
  UInt16 "unit_per_em" ;;
  unit_per_em <- self_uint env "unit_per_em" ;;
  if negb ((16 <=? unit_per_em) && (unit_per_em <=? 16384))
  then raise (ParserError "TTF: Invalid unit/em value")
  else
  UInt32 "created_high" ;;
  TimestampMac32 "created" ;;
  UInt32 "modified_high" ;;
  TimestampMac32 "modified" ;;
  UInt16 "xmin" ;;
  UInt16 "ymin" ;;
  UInt16 "xmax" ;;
  UInt16 "ymax" ;;
  (* Mac style *)
  Bit "bold" ;;
  Bit "italic" ;;
  Bit "underline" ;;
  Bit "outline" ;;
  Bit "shadow" ;;
  Bit "condensed" ;;
  Bit "extensed" ;;
  NullBits "reserved[]" 9 ;;
  UInt16 "lowest" ;;
  UInt16 "font_dir" ;;
  UInt16 "ofst_format" ;;
  UInt16 "glyph_format" ;;
  ret tt.

(** ["Skip duplicate %s %s" % (entry.name, new)], [new] a pair of integers. *)
Definition skip_duplicate_msg (entry : Field) (new : Z * Z) : string :=
  "Skip duplicate " +:+ name entry +:+ " (" +:+ pretty (fst new) +:+ ", "
    +:+ pretty (snd new) +:+ ")".

(** ["Skip value %s (negative offset)" % entry.name] *)
Definition skip_negative_msg (entry : Field) : string :=
  "Skip value " +:+ name entry +:+ " (negative offset)".

Definition pair_eqb (a b : Z * Z) : bool :=
  (fst a =? fst b) && (snd a =? snd b).

(** One turn of the loop [for entry in entries] of [parseNames]; the
    result is the value of [last] for the next turn.  [continue] ends the
    turn. *)
Definition names_step (env : FieldSetEnv) (last : option (Z * Z)) (entry : Field)
  : Gen (option (Z * Z)) :=
  (* Skip duplicates values *)
  e_offset <- decoded (NameHeader.value env entry "offset") ;;
  e_length <- decoded (NameHeader.value env entry "length") ;;
  let new := (e_offset, e_length) in
  if match last with Some l => pair_eqb l new | None => false end
  then error (skip_duplicate_msg entry new) ;; ret last
  else
  let last := Some (e_offset, e_length) in
  (* Skip negative offset *)
  base <- self_uint env "offset" ;;
  let offset := e_offset + base in
  cur <- get_current_size ;;
  if offset <? cur / 8
  then error (skip_negative_msg entry) ;; ret last
  else
  (* Add padding if any *)
  padding <- seekByte offset false ;;
  yield_if padding ;;
  (* Read value *)
  let size := e_length in
  if negb (size =? 0)
  then charset <- decoded (NameHeader.getCharset env entry) ;;
       String_ "value[]" size (Some charset) ;;
       ret last
  else ret last.

Fixpoint names_walk (env : FieldSetEnv) (last : option (Z * Z)) (entries : list Field)
  : Gen unit :=
  match entries with
  | [] => ret tt
  | entry :: rest =>
      last' <- names_step env last entry ;;
      names_walk env last' rest
  end.

Definition parseNames (env : FieldSetEnv) : Gen unit :=
  (* Read header *)
  UInt16 "format" ;;
  format <- self_uint env "format" ;;
  if negb (format =? 0)
  then raise (ParserError ("TTF (names): Invalid format (" +:+ pretty format +:+ ")"))
  else
  UInt16 "count" ;;
  UInt16 "offset" ;;
  (* Read name index *)
  count <- self_uint env "count" ;;
  entries <- read_records (Z.to_nat count) "header[]" FNameHeader NameHeader.createFields ;;
  (* Sort names by their offset *)
  entries <- sort_fields (fun entry => NameHeader.value env entry "offset") entries ;;
  (* Read name value *)
  names_walk env None entries.

Module Table.
Definition TAG_INFO : gmap string (string * string * SubParser) :=
  {[ "head" := ("header", "Font header", ParseFontHeader);
     "name" := ("names", "Names", ParseNames) ]}.

(** [Table(parent, name, table, size=...)]: the constructor reads the
    record's tag and takes name and sub-parser from [TAG_INFO] when the
    tag is known.  The result is the field to yield. *)
Definition init (env : FieldSetEnv) (nm : string) (table : Field)
  : Gen (string * FieldClass) :=
  tag <- decoded (TableHeader.tag env table) ;;
  match TAG_INFO !! tag with
  | Some (n, _, p) => ret (n, FTable (name table) (Some p))
  | None => ret (nm, FTable (name table) None)
  end.

(** The content of a table, produced when the table is opened; [env] is
    the table's own environment. *)
Definition createFields (env : FieldSetEnv) (parser : option SubParser) : Gen unit :=
  match parser with
  | Some ParseFontHeader => parseFontHeader env
  | Some ParseNames => parseNames env
  | None => RawBytes "content" (self_size env / 8) ;; ret tt
  end.
End Table.

Inductive ValidateResult :=
| VTrue
| VMessage (msg : string).

Module TrueTypeFontFile.
(** One turn of [for table in tables]. *)
Definition table_step (env : FieldSetEnv) (table : Field) : Gen unit :=
  offset <- decoded (TableHeader.value env table "offset") ;;
  padding <- seekByte offset true ;;
  yield_if padding ;;
  size <- decoded (TableHeader.value env table "size") ;;
  if negb (size =? 0)
  then t <- Table.init env "table[]" table ;;
       yield (fst t) (snd t) (size * 8) ;;
       ret tt
  else ret tt.

Fixpoint emit_tables (env : FieldSetEnv) (tables : list Field) : Gen unit :=
  match tables with
  | [] => ret tt
  | table :: rest => table_step env table ;; emit_tables env rest
  end.

Definition createFields (env : FieldSetEnv) : Gen unit :=
  UInt16 "maj_ver" ;;
  UInt16 "min_ver" ;;
  UInt16 "nb_table" ;;
  UInt16 "search_range" ;;
  UInt16 "entry_selector" ;;
  UInt16 "range_shift" ;;
  nb_table <- self_uint env "nb_table" ;;
  tables <- read_records (Z.to_nat nb_table) "table_hdr[]" FTableHeader
              TableHeader.createFields ;;
  tables <- sort_fields (fun table => TableHeader.value env table "offset") tables ;;
  emit_tables env tables ;;
  padding <- seekBit (self_size env) true ;;
  yield_if padding.

(** [validate] reads header fields of the parser; its result is [True]
    or a message. *)
Definition validate (env : FieldSetEnv) : Gen ValidateResult :=
  maj_ver <- self_uint env "maj_ver" ;;
  if negb (maj_ver =? 1)
  then ret (VMessage ("Invalid major version (" +:+ pretty maj_ver +:+ ")"))
  else
  min_ver <- self_uint env "min_ver" ;;
  if negb (min_ver =? 0)
  then ret (VMessage ("Invalid minor version (" +:+ pretty min_ver +:+ ")"))
  else
  nb_table <- self_uint env "nb_table" ;;
  if negb ((MIN_NB_TABLE <=? nb_table) && (nb_table <=? MAX_NB_TABLE))
  then ret (VMessage ("Invalid number of table (" +:+ pretty nb_table +:+ ")"))
  else ret VTrue.
End TrueTypeFontFile.

(** The root parser covers the whole stream. *)
Definition root_env (s : InputStream) : FieldSetEnv :=
  {| stream := s; absolute_address := 0; self_size := stream_size s |}.

(** [min_size] of the parser's tags, in bits. *)
Definition min_size : Z := 10 * 8.

(** Modelled from the spec: "the sum of all children's bit lengths
    (including padding) equals the FieldSet's declared size exactly once
    production completes", so a field that would end past the end of its
    owner does not become one of its children, and production stops at it.
    The children a field set of [limit] bits keeps of the fields [fs] its
    generator yields. *)
Fixpoint fitting (limit : Z) (fs : list Field) : list Field :=
  match fs with
  | [] => []
  | f :: fs' => if address f + size f <=? limit then f :: fitting limit fs' else []
  end.

(** The parser opened on stream [s], as a lookup from outside its
    generator sees it: its children are the fields of [createFields] that
    lie inside the stream. *)
Definition root_children (s : InputStream) : FieldSetState :=
  let produced := final_state (TrueTypeFontFile.createFields (root_env s) new_fieldset) in
  {| current_size := current_size produced;
     fields := fitting (stream_size s) (fields produced);
     log := log produced |}.

(** [parser.validate()] on a parser opened on stream [s].  Fields are
    produced on demand: [self[key]] drives [createFields] as far as [key];
    what has been produced before an exception stays available.  Looking
    the key up among the children of the parser gives the same field; the
    lookup of a header field that the stream is too short to hold raises
    [MissingField]. *)
Definition parser_validate (s : InputStream) : Error + ValidateResult :=
  match TrueTypeFontFile.validate (root_env s) (root_children s) with
  | Done r _ => inr r
  | Raised e _ => inl e
  end.

(** ** fragment.py *)

(** Groups are shared mutable objects: fragments hold a reference to
    their group, and the group lists its fragments.  [Heap] is the store of
    group objects. *)
Definition loc := nat.

Record CustomFragment := mkFragment {
  frag_name : string;
  frag_env : FieldSetEnv;   (* stream of the outer tree, absolute address, size *)
  field_size : Z;
  group : loc
}.

Record FragmentGroup := mkGroup {
  items : list CustomFragment;
  parser : string;
  args : gmap string string
}.

Abbreviation Heap := (gmap loc FragmentGroup).

(** [FragmentGroup(parser)]: a new group object. *)
Definition FragmentGroup_init (parser : string) (h : Heap) : loc * Heap :=
  let l := fresh (dom h) in
  (l, <[l := {| items := []; parser := parser; args := ∅ |}]> h).

(** [group.add(item)] *)
Definition FragmentGroup_add (l : loc) (item : CustomFragment) (h : Heap) : Heap :=
  alter (fun g => {| items := items g ++ [item]; parser := parser g; args := args g |}) l h.

Definition CustomFragment_createFields (self : CustomFragment) : Gen unit :=
  RawBytes "rawdata" (field_size self / 8) ;; ret tt.

(** [item["rawdata"].value] *)
Definition rawdata_value (item : CustomFragment) : option (list byte) :=
  g ← child_getitem (CustomFragment_createFields item) "rawdata";
  field_bytes (frag_env item) g.

(** [CustomFragment(parent, name, size, parser, group=group)], placed at
    [env] in the outer tree.  Without a group a new one is created; the
    fragment registers itself in its group. *)
Definition CustomFragment_init (env : FieldSetEnv) (nm : string) (size : Z)
    (parser : string) (group : option loc) (h : Heap) : CustomFragment * Heap :=
  let '(l, h) := match group with
                 | None => FragmentGroup_init parser h
                 | Some l => (l, h)
                 end in
  let self := {| frag_name := nm; frag_env := env; field_size := size; group := l |} in
  (self, FragmentGroup_add l self h).

(** [group.createInputStream()]; [None] stands for an exception (a
    fragment whose bytes cannot be read).  Nothing is stored: each call
    reads the fragments again.  [StringInputStream] and [RawBytes] belong
    to the engine; what their constructors refuse (data or a field of no
    byte) is left out. *)
Definition createInputStream (l : loc) (h : Heap) : option InputStream :=
  g ← h !! l;
  data ← mapM rawdata_value (items g);
  let data := concat data in
  let tags := [("class", TagClass (parser g)); ("args", TagArgs (args g))] in
  Some (StringInputStream data "<fragment group>" tags).

(** [fragment._createInputStream()] *)
Definition CustomFragment_createInputStream (self : CustomFragment) (h : Heap)
  : option InputStream :=
  createInputStream (group self) h.

(** ** Observations on produced fields *)

(** Order of the keys of a decorated list. *)
Definition key_le {A} (x y : Z * A) : Prop := fst x <= fst y.

(** The directory record a table field was built from. *)
Definition table_ref (f : Field) : option string :=
  match class f with
  | FTable t _ => Some t
  | _ => None
  end.

Definition table_refs (fs : list Field) : list string := omap table_ref fs.

Definition is_table (f : Field) : bool :=
  match class f with FTable _ _ => true | _ => false end.

Definition is_string (f : Field) : bool :=
  match class f with FString _ => true | _ => false end.

(** A generator only ever appends to the fields of its field set. *)
Definition extends {A} (m : Gen A) : Prop :=
  forall st, fields st `prefix_of` fields (final_state (m st)).

(** The six header fields of the root parser, and the state of the
    parser once they are produced. *)
Definition header_fields : list Field :=
  [ mkField "maj_ver" 0 16 FUInt16;
    mkField "min_ver" 16 16 FUInt16;
    mkField "nb_table" 32 16 FUInt16;
    mkField "search_range" 48 16 FUInt16;
    mkField "entry_selector" 64 16 FUInt16;
    mkField "range_shift" 80 16 FUInt16 ].

Definition header_produced : FieldSetState :=
  {| current_size := 96; fields := header_fields; log := [] |}.

(** What [createFields] of the root parser does after the header fields. *)
Definition directory_and_tables (env : FieldSetEnv) : Gen unit :=
  nb_table <- self_uint env "nb_table" ;;
  tables <- read_records (Z.to_nat nb_table) "table_hdr[]" FTableHeader
              TableHeader.createFields ;;
  tables <- sort_fields (fun table => TableHeader.value env table "offset") tables ;;
  TrueTypeFontFile.emit_tables env tables ;;
  padding <- seekBit (self_size env) true ;;
  yield_if padding.

(** The 16-bit big-endian integer at byte [pos] of a stream. *)
Definition uint16_at (s : InputStream) (pos : Z) : option Z :=
  uint_be <$> readBytes s (pos * 8) 2.

(** ** Example inputs *)

Definition byte_of (n : Z) : byte := default x00 (Byte.of_N (Z.to_N n)).

(** Big-endian encodings. *)
Definition u16 (n : Z) : list byte := [byte_of (n / 256); byte_of (n mod 256)].
Definition u32 (n : Z) : list byte := u16 (n / 65536) ++ u16 (n mod 65536).

Definition stream_of (data : list byte) : InputStream :=
  StringInputStream data "<example>" [].

(** The 12-byte header of a font file. *)
Definition font_header (maj_ver min_ver nb_table : Z) : list byte :=
  u16 maj_ver ++ u16 min_ver ++ u16 nb_table ++ u16 0 ++ u16 0 ++ u16 0.

(** ** The phases of [parseFontHeader] *)










Definition table_env (data : list byte) : FieldSetEnv :=
  {| stream := stream_of data; absolute_address := 0;
     self_size := 8 * Z.of_nat (length data) |}.

(** ** Registering the fragments of one group *)

(** Where a fragment sits: the environment it is placed at in the outer
    tree, its name and its size in bits. *)
Definition Placement : Type := FieldSetEnv * string * Z.

(** The bytes a fragment of [size] bits placed at [env] holds. *)
Definition raw_bytes_at (env : FieldSetEnv) (size : Z) : option (list byte) :=
  readBytes (stream env) (absolute_address env + 0) (size / 8 * 8 / 8).

(** One more fragment for the group [l]. *)
Definition register_next (parser : string) (l : loc)
    (acc : list CustomFragment * Heap) (pl : Placement) : list CustomFragment * Heap :=
  let '(fs, h) := acc in
  let '(env, nm, sz) := pl in
  let '(f, h') := CustomFragment_init env nm sz parser (Some l) h in
  (fs ++ [f], h').

(** The first fragment is built without a group and creates it; each
    later fragment is passed the group of the first. *)
Definition register_fragments (parser : string) (first : Placement)
    (rest : list Placement) (h : Heap) : list CustomFragment * Heap :=
  let '(env1, nm1, sz1) := first in
  let '(f1, h1) := CustomFragment_init env1 nm1 sz1 parser None h in
  foldl (register_next parser (group f1)) ([f1], h1) rest.

(** The stream [createInputStream] builds from [data] for a group. *)
Definition group_stream (data : list byte) (parser : string) (args : gmap string string)
  : InputStream :=
  StringInputStream data "<fragment group>"
    [("class", TagClass parser); ("args", TagArgs args)].

(** Three fragments holding "AB", "CD" and "EF", scattered in one outer
    stream: "EF" at byte 2, "AB" at byte 6, "CD" at byte 11. *)
Definition outer_stream : InputStream :=
  stream_of (list_byte_of_string "..EF..AB...CD").

Definition placed_at (pos : Z) : FieldSetEnv :=
  {| stream := outer_stream; absolute_address := pos * 8; self_size := 16 |}.

(** ** The walk of [parseNames] *)

(** The walk over a first part of the entries, giving the value of
    [last] the rest of the walk starts from. *)
Fixpoint names_walk_to (env : FieldSetEnv) (last : option (Z * Z)) (entries : list Field)
  : Gen (option (Z * Z)) :=
  match entries with
  | [] => ret last
  | entry :: rest =>
      last' <- names_step env last entry ;;
      names_walk_to env last' rest
  end.

(** [(entry["offset"].value, entry["length"].value)] *)
Definition entry_pair (env : FieldSetEnv) (entry : Field) : option (Z * Z) :=
  e_offset ← NameHeader.value env entry "offset";
  e_length ← NameHeader.value env entry "length";
  Some (e_offset, e_length).

(** [self["offset"].value] in state [st]: the base of the string block. *)
Definition base_offset (env : FieldSetEnv) (st : FieldSetState) : option Z :=
  f ← lookup_field "offset" (fields st); field_uint env f.

(** [st] after one anomaly has been logged. *)
Definition logged (st : FieldSetState) (msg : string) : FieldSetState :=
  {| current_size := current_size st; fields := fields st; log := log st ++ [msg] |}.

(** The padding field a seek to bit [target] makes in state [st], if any. *)
Definition padding_to (target : Z) (null : bool) (st : FieldSetState) : list Field :=
  if current_size st <? target
  then [mkField (unique_name "padding[]" (fields st)) (current_size st)
          (target - current_size st) (FPadding null)]
  else [].

(** [st] after the fields [fs] have been appended, the cursor at [cur]. *)
Definition produced (st : FieldSetState) (fs : list Field) (cur : Z) : FieldSetState :=
  {| current_size := cur; fields := fields st ++ fs; log := log st |}.

(** The state after [yield Class(self, n, ...)] in state [st]. *)
Definition after_yield (n : string) (c : FieldClass) (sz : Z) (st : FieldSetState)
  : FieldSetState :=
  final_state (yield n c sz st).

(** The state after [padding = self.seekBit(target); if padding: yield
    padding] when the seek succeeds. *)
Definition after_seek (target : Z) (null : bool) (st : FieldSetState) : FieldSetState :=
  if 0 <? target - current_size st
  then after_yield "padding[]" (FPadding null) (target - current_size st) st
  else st.

(** ** A name table with overlapping strings *)

(** One 12-byte index record. *)
Definition name_record (platformID encodingID languageID nameID length offset : Z)
  : list byte :=
  u16 platformID ++ u16 encodingID ++ u16 languageID ++ u16 nameID
  ++ u16 length ++ u16 offset.

(** Three index records; the string block starts at byte 42.  The first
    string covers bytes 42..45, the second and the third record both name
    bytes 44..47. *)
Definition names_overlap : list byte :=
  u16 0 ++ u16 3 ++ u16 42
  ++ name_record 1 0 0 1 4 0
  ++ name_record 1 0 0 2 4 2
  ++ name_record 1 0 0 4 4 2
  ++ list_byte_of_string "Arials".

Definition names_env : FieldSetEnv := table_env names_overlap.

(** The three index records as fields of the table. *)
Definition header_0 : Field := mkField "header[0]" 48 96 FNameHeader.
Definition header_1 : Field := mkField "header[1]" 144 96 FNameHeader.
Definition header_2 : Field := mkField "header[2]" 240 96 FNameHeader.

(** The table once header and index records are produced, and once the
    first record has been walked. *)
Definition names_indexed : FieldSetState :=
  Eval vm_compute in
    final_state ((UInt16 "format" ;; UInt16 "count" ;; UInt16 "offset" ;;
                  read_records 3 "header[]" FNameHeader NameHeader.createFields)
                   new_fieldset).

Definition names_first_walked : FieldSetState :=
  Eval vm_compute in final_state (names_step names_env None header_0 names_indexed).

(** [st] after several anomalies have been logged. *)
Definition logged_all (st : FieldSetState) (msgs : list string) : FieldSetState :=
  {| current_size := current_size st; fields := fields st; log := log st ++ msgs |}.





(** Name and sub-parser [Table.__init__] takes for a tag. *)
Definition table_name_parser (tag : string) : string * option SubParser :=
  match Table.TAG_INFO !! tag with
  | Some (n, _, p) => (n, Some p)
  | None => ("table[]", None)
  end.

(** The directory records with a nonzero size. *)
Definition nonempty_tables (env : FieldSetEnv) (tables : list Field) : list Field :=
  List.filter (fun t => bool_decide (TableHeader.value env t "size" <> Some 0)) tables.

(** ** A font file with three tables *)

(** One 16-byte directory record. *)
Definition table_record (tag : string) (checksum offset size : Z) : list byte :=
  list_byte_of_string tag ++ u32 checksum ++ u32 offset ++ u32 size.

(** The directory takes bytes 0..59.  In file order the records point to
    byte 70 (size 0), byte 60 (4 bytes) and byte 72 (4 bytes). *)
Definition font_tables : list byte :=
  font_header 1 0 3
  ++ table_record "zero" 0 70 0
  ++ table_record "data" 0 60 4
  ++ table_record "more" 0 72 4
  ++ replicate 16 x00.

Definition font_tables_env : FieldSetEnv := root_env (stream_of font_tables).

Definition table_hdr_0 : Field := mkField "table_hdr[0]" 96 128 FTableHeader.
Definition table_hdr_1 : Field := mkField "table_hdr[1]" 224 128 FTableHeader.
Definition table_hdr_2 : Field := mkField "table_hdr[2]" 352 128 FTableHeader.

(** The parser once the directory of three records is read. *)
Definition font_tables_indexed : FieldSetState :=
  Eval vm_compute in
    final_state (read_records 3 "table_hdr[]" FTableHeader TableHeader.createFields
                   header_produced).

(** A font file whose three directory records point, in file order, to
    bytes 200, 50 and 120. *)
Definition font_200_50_120 : list byte :=
  font_header 1 0 3
  ++ table_record "aaaa" 0 200 4
  ++ table_record "bbbb" 0 50 4
  ++ table_record "cccc" 0 120 4
  ++ replicate 144 x00.

(** The key of the directory sort. *)
Definition offset_key (env : FieldSetEnv) (table : Field) : option Z :=
  TableHeader.value env table "offset".

(** ** Layout of produced fields *)

(** The fields [fs] follow each other without gap or overlap from bit
    [start] to bit [stop]. *)
Fixpoint contiguous (start : Z) (fs : list Field) (stop : Z) : Prop :=
  match fs with
  | [] => start = stop
  | f :: fs' => address f = start /\ contiguous (start + size f) fs' stop
  end.

(** The fields of a field set tile it from bit 0 to its cursor. *)
Definition tiled (st : FieldSetState) : Prop :=
  contiguous 0 (fields st) (current_size st).

(** A generator keeps a property of the state, whether it completes or
    raises. *)
Definition preserves (P : FieldSetState -> Prop) {A} (m : Gen A) : Prop :=
  forall st, P st -> P (final_state (m st)).

(** The exceptions a generator may raise in state [st] all satisfy [E]. *)
Definition raises_only (E : Error -> Prop) {A} (m : Gen A) (st : FieldSetState) : Prop :=
  forall e st', m st = Raised e st' -> E e.

(** Number of string fields among [fs]. *)
Definition count_strings (fs : list Field) : nat :=
  length (List.filter is_string fs).

(** The fields [createFields] produces for [font_tables]. *)
Definition font_tables_done : FieldSetState :=
  Eval vm_compute in
    final_state (TrueTypeFontFile.createFields font_tables_env new_fieldset).

(** The table field [f] stands for one of the records [tables]: it names
    the record, sits at the record's declared offset and has the record's
    declared size, which is not zero. *)
Definition table_placed (env : FieldSetEnv) (tables : list Field) (f : Field) : Prop :=
  exists t off sz,
    t ∈ tables /\ table_ref f = Some (name t) /\
    TableHeader.value env t "offset" = Some off /\
    TableHeader.value env t "size" = Some sz /\ sz <> 0 /\
    address f = off * 8 /\ size f = sz * 8.

(** The content of a table without sub-parser: its bytes, raw. *)
Definition raw_content (env : FieldSetEnv) : FieldSetState :=
  {| current_size := self_size env / 8 * 8;
     fields := [mkField "content" 0 (self_size env / 8 * 8) FRawBytes];
     log := [] |}.

(** ** The header of the name table *)

(** The name table once [format] is produced, and once its three header
    fields are produced. *)
Definition names_at_format : FieldSetState :=
  Eval vm_compute in final_state (UInt16 "format" new_fieldset).

Definition names_at_offset : FieldSetState :=
  Eval vm_compute in
    final_state ((UInt16 "count" ;; UInt16 "offset") names_at_format).

(** [format] and [count] of the name table [env], read off the stream. *)
Definition format_of (env : FieldSetEnv) : option Z :=
  uint_be <$> readBytes (stream env) (absolute_address env + 0) 2.

Definition count_of (env : FieldSetEnv) : option Z :=
  uint_be <$> readBytes (stream env) (absolute_address env + 16) 2.

(** ["TTF (names): Invalid format (%u)" % format] *)
Definition invalid_format_msg (format : Z) : string :=
  "TTF (names): Invalid format (" +:+ pretty format +:+ ")".

(** What [parseNames] does after its three header fields. *)
Definition names_index_and_values (env : FieldSetEnv) (count : Z) : Gen unit :=
  entries <- read_records (Z.to_nat count) "header[]" FNameHeader NameHeader.createFields ;;
  entries <- sort_fields (fun entry => NameHeader.value env entry "offset") entries ;;
  names_walk env None entries.

(** The string field [f] is the value of one of the records [entries]: it
    starts at the record's offset in the string block, has the record's
    length in bytes and the record's character set. *)
Definition string_placed (env : FieldSetEnv) (base : Z) (entries : list Field) (f : Field)
  : Prop :=
  exists e eo el cs,
    e ∈ entries /\ entry_pair env e = Some (eo, el) /\ el <> 0 /\
    NameHeader.getCharset env e = Some cs /\
    address f = (eo + base) * 8 /\ size f = el * 8 /\ class f = FString (Some cs).


(** The six fields of an index record of the name table (12 bytes). *)
Definition name_header_layout : FieldSetState :=
  Eval vm_compute in final_state (NameHeader.createFields new_fieldset).

(** The name table [names_overlap] at the end of its parse. *)
Definition names_done : FieldSetState :=
  Eval vm_compute in final_state (parseNames names_env new_fieldset).


(** The stream made of the first six bytes of [s]. *)
Definition header_words (s : InputStream) : InputStream :=
  stream_of (take 6 (stream_data s)).

(** Whole bytes of a fragment: [field_size // 8]. *)
Definition fragment_bytes (item : CustomFragment) : nat :=
  Z.to_nat (field_size item / 8).

(** A fragment of 20 bits at byte 6 of [outer_stream]: two whole bytes. *)
Definition one_fragment : CustomFragment :=
  {| frag_name := "fragment[0]"; frag_env := placed_at 6; field_size := 20;
     group := 0%nat |}.

(** The four fields of a record of the table directory (16 bytes). *)
Definition table_header_layout : FieldSetState :=
  Eval vm_compute in final_state (TableHeader.createFields new_fieldset).

(** ** Well-formed directories *)

(** The records with a string of nonzero length. *)
Definition nonempty_entries (env : FieldSetEnv) (entries : list Field) : list Field :=
  List.filter (fun e => match entry_pair env e with
                        | Some (_, el) => negb (el =? 0)
                        | None => false
                        end) entries.


(** ** A name table with a record between two equal ones *)

(** Four index records; the string block starts at byte 54.  The first
    string covers bytes 54..57.  The second and the fourth record both name
    the bytes 56..59; the third, between them in the order of the walk,
    names the bytes 56..60. *)
Definition names_interleaved : list byte :=
  u16 0 ++ u16 4 ++ u16 54
  ++ name_record 1 0 0 1 4 0
  ++ name_record 1 0 0 2 4 2
  ++ name_record 1 0 0 3 5 2
  ++ name_record 1 0 0 4 4 2
  ++ list_byte_of_string "Arial!!".

Definition names_interleaved_env : FieldSetEnv := table_env names_interleaved.

Definition header_3 : Field := mkField "header[3]" 336 96 FNameHeader.


(** ** Tables and strings inside their owner *)

(** The table the directory record [t] declares lies inside the field set
    [env]: the record can be decoded, and the table ends at or before the
    end of the field set. *)
Definition in_stream (env : FieldSetEnv) (t : Field) : Prop :=
  exists off sz,
    TableHeader.value env t "offset" = Some off /\
    TableHeader.value env t "size" = Some sz /\
    is_Some (TableHeader.tag env t) /\
    (off + sz) * 8 <= self_size env.








(** The index records [entries], in the order of the walk, name strings
    that follow each other inside the table: each record can be decoded,
    differs from the one before it, and its string starts at or after byte
    [cur] of the table, where the string before it ends, and ends at or
    before the end of the table. *)
Fixpoint strings_in_order (env : FieldSetEnv) (base cur : Z) (last : option (Z * Z))
    (entries : list Field) : Prop :=
  match entries with
  | [] => True
  | e :: rest =>
      exists eo el,
        entry_pair env e = Some (eo, el) /\ last <> Some (eo, el) /\
        cur <= eo + base /\
        (eo + base + el) * 8 <= self_size env /\
        (el <> 0 -> is_Some (NameHeader.getCharset env e)) /\
        strings_in_order env base (eo + base + el) (Some (eo, el)) rest
  end.

(** A name table of two index records whose strings follow each other:
    in file order the records name the bytes 34..35 and 30..33 of the
    table, the second one in UTF-16-BE. *)
Definition names_clean : list byte :=
  u16 0 ++ u16 2 ++ u16 30
  ++ name_record 1 0 0 2 2 4
  ++ name_record 3 1 0 1 4 0
  ++ list_byte_of_string "ABCDEF".

Definition names_clean_env : FieldSetEnv := table_env names_clean.

(** The table once header and index records are produced. *)
Definition names_clean_indexed : FieldSetState :=
  Eval vm_compute in
    final_state ((UInt16 "format" ;; UInt16 "count" ;; UInt16 "offset" ;;
                  read_records 2 "header[]" FNameHeader NameHeader.createFields)
                   new_fieldset).

(** An index record of the name table [env] whose six fields can be
    decoded. *)
Definition record_readable (env : FieldSetEnv) (e : Field) : Prop :=
  is_Some (entry_pair env e) /\ is_Some (NameHeader.getCharset env e).


(** A font file whose second table starts inside the first: in file
    order, which is also the order of the offsets, the records point to
    bytes 60 (8 bytes), 64 (4 bytes) and 72 (4 bytes). *)
Definition font_overlap : list byte :=
  font_header 1 0 3
  ++ table_record "aaaa" 0 60 8
  ++ table_record "bbbb" 0 64 4
  ++ table_record "cccc" 0 72 4
  ++ replicate 16 x00.


(** The string the index record [e] names ends inside the table [env],
    [base] being the start of the string block. *)
Definition string_inside (env : FieldSetEnv) (base : Z) (e : Field) : Prop :=
  forall eo el, entry_pair env e = Some (eo, el) -> (eo + base + el) * 8 <= self_size env.


(** * Properties *)

(** ** The stable sort *)

Section Sorting.
Context {A : Type}.
Implicit Types (x : Z * A) (l : list (Z * A)).

Lemma insert_by_key_perm x l : insert_by_key x l ≡ₚ x :: l.
Proof.
  induction l as [|y l IH]; simpl; [done|].
  destruct (fst x <=? fst y); [done|].
  rewrite IH. apply Permutation_swap.
Qed.

Lemma sort_by_key_perm l : sort_by_key l ≡ₚ l.
Proof.
  induction l as [|x l IH]; simpl; [done|].
  rewrite insert_by_key_perm. by f_equiv.
Qed.

Lemma insert_by_key_hd x y l :
  fst y <= fst x -> HdRel key_le y l -> HdRel key_le y (insert_by_key x l).
Proof.
  intros Hyx Hl. destruct l as [|z l]; simpl.
  - by constructor.
  - destruct (fst x <=? fst z); constructor; [done|].
    by inversion Hl.
Qed.

Lemma insert_by_key_sorted x l :
  Sorted key_le l -> Sorted key_le (insert_by_key x l).
Proof.
  induction 1 as [|y l Hs IH Hhd]; simpl.
  - repeat constructor.
  - destruct (Z.leb_spec (fst x) (fst y)).
    + constructor; [by constructor|]. by constructor.
    + constructor; [done|]. apply insert_by_key_hd; [unfold key_le; lia|done].
Qed.

Lemma sort_by_key_sorted l : Sorted key_le (sort_by_key l).
Proof.
  induction l; simpl; [constructor|]. by apply insert_by_key_sorted.
Qed.

Lemma insert_by_key_filter (k : Z) x l :
  filter (fun y => fst y = k) (insert_by_key x l)
  = filter (fun y => fst y = k) (x :: l).
Proof.
  induction l as [|y l IH]; simpl; [done|].
  destruct (Z.leb_spec (fst x) (fst y)); [done|].
  rewrite filter_cons, IH, !filter_cons.
  destruct (decide (fst y = k)), (decide (fst x = k)); try done. lia.
Qed.

Lemma sort_by_key_stable (k : Z) l :
  filter (fun y => fst y = k) (sort_by_key l) = filter (fun y => fst y = k) l.
Proof.
  induction l as [|x l IH]; simpl; [done|].
  rewrite insert_by_key_filter, !filter_cons, IH. done.
Qed.
End Sorting.

(** ** The monad *)

Lemma final_state_bind {A B} (m : Gen A) (k : A -> Gen B) st :
  final_state (bind m k st)
  = match m st with
    | Done a st' => final_state (k a st')
    | Raised _ st' => st'
    end.
Proof. unfold bind. by destruct (m st). Qed.

Lemma extends_ret {A} (a : A) : extends (ret a).
Proof. by intros st. Qed.

Lemma extends_raise {A} e : extends (@raise A e).
Proof. by intros st. Qed.

Lemma extends_bind {A B} (m : Gen A) (k : A -> Gen B) :
  extends m -> (forall a, extends (k a)) -> extends (bind m k).
Proof.
  intros Hm Hk st. rewrite final_state_bind.
  specialize (Hm st). destruct (m st) as [a st'|e st']; simpl in *; [|done].
  etrans; [exact Hm|apply Hk].
Qed.

Lemma extends_yield n c sz : extends (yield n c sz).
Proof. intros st. simpl. by apply prefix_app_r. Qed.

Lemma extends_error msg : extends (error msg).
Proof. by intros st. Qed.

Lemma extends_getitem key : extends (getitem key).
Proof. intros st. unfold getitem. by destruct (lookup_field _ _). Qed.

Lemma extends_decoded {A} (v : option A) : extends (decoded v).
Proof. destruct v; [apply extends_ret|apply extends_raise]. Qed.

Lemma extends_get_current_size : extends get_current_size.
Proof. by intros st. Qed.

Lemma extends_seekBit a null : extends (seekBit a null).
Proof.
  intros st. unfold seekBit.
  destruct (_ <? 0); [done|]. by destruct (0 <? _).
Qed.

Create HintDb extends.
#[global] Hint Resolve extends_ret extends_raise extends_yield extends_error
  extends_getitem extends_decoded extends_get_current_size extends_seekBit : extends.

Ltac solve_extends :=
  repeat first
    [ progress auto with extends
    | apply extends_bind; [|intros ?]
    | match goal with
      | |- extends (if ?b then _ else _) => destruct b
      | |- extends (match ?o with Some _ => _ | None => _ end) => destruct o
      | |- extends (match ?o with Done _ _ => _ | Raised _ _ => _ end) => destruct o
      | |- extends (let '(_, _) := ?p in _) => destruct p
      end ].

Lemma extends_yield_if p : extends (yield_if p).
Proof. destruct p as [[[n c] sz]|]; unfold yield_if; solve_extends. Qed.

Lemma extends_self_uint env key : extends (self_uint env key).
Proof. unfold self_uint. solve_extends. Qed.

Lemma extends_yield_fieldset n c gen : extends (yield_fieldset n c gen).
Proof. unfold yield_fieldset. solve_extends. Qed.

#[global] Hint Resolve extends_yield_if extends_self_uint extends_yield_fieldset : extends.

Lemma extends_read_records k n c gen : extends (read_records k n c gen).
Proof. induction k; simpl; solve_extends. Qed.

Lemma extends_with_keys key l : extends (with_keys key l).
Proof. induction l; simpl; solve_extends. Qed.

#[global] Hint Resolve extends_read_records extends_with_keys : extends.

Lemma extends_table_step env table : extends (TrueTypeFontFile.table_step env table).
Proof.
  unfold TrueTypeFontFile.table_step, Table.init, seekByte. solve_extends.
Qed.

Lemma extends_emit_tables env tables : extends (TrueTypeFontFile.emit_tables env tables).
Proof.
  induction tables as [|t tables IH]; [apply extends_ret|].
  cbn [TrueTypeFontFile.emit_tables].
  apply extends_bind; [apply extends_table_step|done].
Qed.

(** ** The root parser: header fields *)

Lemma createFields_split env :
  TrueTypeFontFile.createFields env new_fieldset = directory_and_tables env header_produced.
Proof. reflexivity. Qed.

Lemma extends_directory_and_tables env : extends (directory_and_tables env).
Proof.
  unfold directory_and_tables, sort_fields. solve_extends.
  apply extends_emit_tables.
Qed.

Lemma lookup_field_prefix key fs fs' f :
  fs `prefix_of` fs' -> lookup_field key fs = Some f -> lookup_field key fs' = Some f.
Proof.
  intros [k ->] H. unfold lookup_field in *.
  induction fs as [|g fs IH]; simpl in *; [done|].
  destruct (String.eqb (name g) key); [done|]. by apply IH.
Qed.

Lemma createFields_header s :
  header_fields `prefix_of`
    fields (final_state (TrueTypeFontFile.createFields (root_env s) new_fieldset)).
Proof.
  rewrite createFields_split. apply (extends_directory_and_tables _ header_produced).
Qed.

Lemma readBytes_is_Some s address n :
  0 <= address -> address mod 8 = 0 -> 0 <= n -> address + 8 * n <= stream_size s ->
  is_Some (readBytes s address n).
Proof.
  intros H1 H2 H3 H4. unfold readBytes.
  rewrite (proj2 (Z.leb_le _ _) H1), (proj2 (Z.eqb_eq _ _) H2),
    (proj2 (Z.leb_le _ _) H3), (proj2 (Z.leb_le _ _) H4). simpl. eauto.
Qed.

Lemma uint16_at_is_Some s pos :
  0 <= pos -> pos * 8 + 16 <= stream_size s -> is_Some (uint16_at s pos).
Proof.
  intros H1 H2. unfold uint16_at.
  destruct (readBytes_is_Some s (pos * 8) 2) as [bs ->]; try lia; [|by eexists].
  by rewrite Z.mod_mul.
Qed.

Lemma uint16_at_None s pos :
  stream_size s < pos * 8 + 16 -> uint16_at s pos = None.
Proof.
  intros H. unfold uint16_at, readBytes.
  rewrite (proj2 (Z.leb_gt (pos * 8 + 8 * 2) (stream_size s))) by lia.
  by rewrite !andb_false_r.
Qed.

(** The three header fields [validate] reads, among the children of the
    parser: there exactly when the stream holds them. *)
Lemma fitting_header limit rest :
  let fs := fitting limit (header_fields ++ rest) in
  lookup_field "maj_ver" fs
  = (if 16 <=? limit then Some (mkField "maj_ver" 0 16 FUInt16) else None) /\
  lookup_field "min_ver" fs
  = (if 32 <=? limit then Some (mkField "min_ver" 16 16 FUInt16) else None) /\
  lookup_field "nb_table" fs
  = (if 48 <=? limit then Some (mkField "nb_table" 32 16 FUInt16) else None).
Proof.
  unfold header_fields. cbn [app fitting address size].
  change (0 + 16) with 16. change (16 + 16) with 32. change (32 + 16) with 48.
  change (48 + 16) with 64. change (64 + 16) with 80. change (80 + 16) with 96.
  destruct (Z.leb_spec 16 limit); simpl.
  2:{ repeat match goal with |- context [?a <=? limit] =>
        rewrite (proj2 (Z.leb_gt a limit)) by lia end.
      repeat split; reflexivity. }
  destruct (Z.leb_spec 32 limit); simpl.
  2:{ repeat match goal with |- context [?a <=? limit] =>
        rewrite (proj2 (Z.leb_gt a limit)) by lia end.
      repeat split; reflexivity. }
  destruct (Z.leb_spec 48 limit); simpl.
  2:{ repeat match goal with |- context [?a <=? limit] =>
        rewrite (proj2 (Z.leb_gt a limit)) by lia end.
      repeat split; reflexivity. }
  repeat destruct (_ <=? limit); repeat split; reflexivity.
Qed.

Lemma root_children_self_uint s key pos :
  (key = "maj_ver" /\ pos = 0) \/ (key = "min_ver" /\ pos = 2)
  \/ (key = "nb_table" /\ pos = 4) ->
  self_uint (root_env s) key (root_children s)
  = match uint16_at s pos with
    | Some v => Done v (root_children s)
    | None => Raised (MissingField key) (root_children s)
    end.
Proof.
  intros Hkey. unfold self_uint, bind, getitem.
  destruct (createFields_header s) as [rest Hrest].
  assert (Hfs : fields (root_children s)
                = fitting (stream_size s) (header_fields ++ rest))
    by (unfold root_children; cbn [fields]; by rewrite Hrest).
  rewrite Hfs.
  destruct (fitting_header (stream_size s) rest) as (Hmaj & Hmin & Hnb).
  destruct Hkey as [[-> ->]|[[-> ->]|[-> ->]]].
  - rewrite Hmaj. destruct (Z.leb_spec 16 (stream_size s)).
    + change (field_uint (root_env s) (mkField "maj_ver" 0 16 FUInt16))
        with (uint16_at s 0).
      by destruct (uint16_at_is_Some s 0) as [v ->]; [lia..|].
    + by rewrite uint16_at_None by lia.
  - rewrite Hmin. destruct (Z.leb_spec 32 (stream_size s)).
    + change (field_uint (root_env s) (mkField "min_ver" 16 16 FUInt16))
        with (uint16_at s 2).
      by destruct (uint16_at_is_Some s 2) as [v ->]; [lia..|].
    + by rewrite uint16_at_None by lia.
  - rewrite Hnb. destruct (Z.leb_spec 48 (stream_size s)).
    + change (field_uint (root_env s) (mkField "nb_table" 32 16 FUInt16))
        with (uint16_at s 4).
      by destruct (uint16_at_is_Some s 4) as [v ->]; [lia..|].
    + by rewrite uint16_at_None by lia.
Qed.

(** [validate], read off the stream. *)
Lemma parser_validate_unfold s :
  parser_validate s =
  match uint16_at s 0 with
  | None => inl (MissingField "maj_ver")
  | Some maj_ver =>
    if negb (maj_ver =? 1)
    then inr (VMessage ("Invalid major version (" +:+ pretty maj_ver +:+ ")"))
    else
    match uint16_at s 2 with
    | None => inl (MissingField "min_ver")
    | Some min_ver =>
      if negb (min_ver =? 0)
      then inr (VMessage ("Invalid minor version (" +:+ pretty min_ver +:+ ")"))
      else
      match uint16_at s 4 with
      | None => inl (MissingField "nb_table")
      | Some nb_table =>
        if negb ((MIN_NB_TABLE <=? nb_table) && (nb_table <=? MAX_NB_TABLE))
        then inr (VMessage ("Invalid number of table (" +:+ pretty nb_table +:+ ")"))
        else inr VTrue
      end
    end
  end.
Proof.
  unfold parser_validate, TrueTypeFontFile.validate.
  unfold bind at 1.
  rewrite (root_children_self_uint s "maj_ver" 0) by tauto.
  destruct (uint16_at s 0) as [maj|]; [|done].
  destruct (negb (maj =? 1)); [done|].
  unfold bind at 1.
  rewrite (root_children_self_uint s "min_ver" 2) by tauto.
  destruct (uint16_at s 2) as [mn|]; [|done].
  destruct (negb (mn =? 0)); [done|].
  unfold bind at 1.
  rewrite (root_children_self_uint s "nb_table" 4) by tauto.
  destruct (uint16_at s 4) as [nb|]; [|done].
  by destruct (negb _).
Qed.

(** ** [validate] *)

(** C3.  [validate()] of the root parser succeeds exactly when the major
    version is 1, the minor version is 0 and the table count lies in
    [3, 30]; otherwise its result is the message of the first check that
    fails.  A count of 2 and a count of 31 fail, a count of 5 in an
    otherwise valid header passes. *)
Theorem validate_spec (s : InputStream) :
  (parser_validate s = inr VTrue <->
     uint16_at s 0 = Some 1 /\ uint16_at s 2 = Some 0 /\
     exists nb, uint16_at s 4 = Some nb /\ MIN_NB_TABLE <= nb <= MAX_NB_TABLE) /\
  (forall maj, uint16_at s 0 = Some maj -> maj <> 1 ->
     parser_validate s = inr (VMessage ("Invalid major version (" +:+ pretty maj +:+ ")"))) /\
  (forall mn, uint16_at s 0 = Some 1 -> uint16_at s 2 = Some mn -> mn <> 0 ->
     parser_validate s = inr (VMessage ("Invalid minor version (" +:+ pretty mn +:+ ")"))) /\
  (forall nb, uint16_at s 0 = Some 1 -> uint16_at s 2 = Some 0 ->
     uint16_at s 4 = Some nb -> ~ (3 <= nb <= 30) ->
     parser_validate s = inr (VMessage ("Invalid number of table (" +:+ pretty nb +:+ ")"))) /\
  (uint16_at s 0 = Some 1 -> uint16_at s 2 = Some 0 -> uint16_at s 4 = Some 2 ->
     parser_validate s = inr (VMessage "Invalid number of table (2)")) /\
  (uint16_at s 0 = Some 1 -> uint16_at s 2 = Some 0 -> uint16_at s 4 = Some 31 ->
     parser_validate s = inr (VMessage "Invalid number of table (31)")) /\
  (uint16_at s 0 = Some 1 -> uint16_at s 2 = Some 0 -> uint16_at s 4 = Some 5 ->
     parser_validate s = inr VTrue).
Proof.
  rewrite parser_validate_unfold. unfold MIN_NB_TABLE, MAX_NB_TABLE.
  repeat apply conj.
  - destruct (uint16_at s 0) as [maj|]; [|done].
    destruct (Z.eqb_spec maj 1) as [->|]; simpl; [|done].
    destruct (uint16_at s 2) as [mn|]; [|done].
    destruct (Z.eqb_spec mn 0) as [->|]; simpl; [|done].
    destruct (uint16_at s 4) as [nb|]; [|done].
    destruct (Z.leb_spec 3 nb), (Z.leb_spec nb 30); simpl; try done.
    intros _. repeat split; try done. exists nb. split; [done|lia].
  - intros (-> & -> & nb & -> & Hnb). simpl.
    destruct (Z.leb_spec 3 nb), (Z.leb_spec nb 30); simpl; try done; lia.
  - intros maj -> Hmaj. by destruct (Z.eqb_spec maj 1).
  - intros mn -> -> Hmn. simpl. by destruct (Z.eqb_spec mn 0).
  - intros nb -> -> -> Hnb. simpl.
    destruct (Z.leb_spec 3 nb), (Z.leb_spec nb 30); simpl; try done; lia.
  - by intros -> -> ->.
  - by intros -> -> ->.
  - by intros -> -> ->.
Qed.

Lemma validate_spec_witness :
  parser_validate (stream_of (font_header 1 0 5)) = inr VTrue.
Proof.
  apply (proj1 (validate_spec (stream_of (font_header 1 0 5)))).
  split; [reflexivity|]. split; [reflexivity|].
  exists 5. split; [reflexivity|]. unfold MIN_NB_TABLE, MAX_NB_TABLE. lia.
Defined.

(** C9 as stated fails.  On the two-byte stream 00 01 the major version
    is 1, so [validate] goes on to the minor version; the stream is too
    short to hold that field, the parser has no child [min_ver], and the
    lookup raises [MissingField], which [validate] does not catch. *)
Lemma validate_raises_on_short_stream :
  stream_data (stream_of (u16 1)) = [x00; x01] /\
  parser_validate (stream_of (u16 1)) = inl (MissingField "min_ver") /\
  ~ (forall s, exists r, parser_validate s = inr r).
Proof.
  split; [reflexivity|].
  assert (H : parser_validate (stream_of (u16 1)) = inl (MissingField "min_ver"))
    by (vm_compute; reflexivity).
  split; [exact H|].
  intros Hall. destruct (Hall (stream_of (u16 1))) as [r Hr]. congruence.
Qed.

(** C9, amended.  On every stream that holds the three header fields
    [validate] reads (6 bytes; the parser declares a minimum size of 10
    bytes), [validate()] does not raise: it returns [True] or a message.
    It raises on shorter streams only, and only [MissingField] for the
    header field it is looking up, which the stream is too short to hold;
    even there it returns its message when the check of an earlier field
    fails. *)
Theorem validate_total (s : InputStream) :
  (48 <= stream_size s -> exists r, parser_validate s = inr r) /\
  (forall e, parser_validate s = inl e ->
     stream_size s < 48 /\
     ((e = MissingField "maj_ver" /\ stream_size s < 16) \/
      (e = MissingField "min_ver" /\ uint16_at s 0 = Some 1 /\ stream_size s < 32) \/
      (e = MissingField "nb_table" /\ uint16_at s 0 = Some 1 /\
       uint16_at s 2 = Some 0))) /\
  (forall maj, uint16_at s 0 = Some maj -> maj <> 1 ->
     exists msg, parser_validate s = inr (VMessage msg)) /\
  (forall mn, uint16_at s 0 = Some 1 -> uint16_at s 2 = Some mn -> mn <> 0 ->
     exists msg, parser_validate s = inr (VMessage msg)).
Proof.
  rewrite parser_validate_unfold.
  assert (Hsome : forall pos, 0 <= pos -> uint16_at s pos = None ->
                    stream_size s < pos * 8 + 16).
  { intros pos Hpos Hnone.
    destruct (Z.lt_ge_cases (stream_size s) (pos * 8 + 16)) as [|Hge]; [done|].
    destruct (uint16_at_is_Some s pos Hpos Hge) as [v Hv]. congruence. }
  split; [|split; [|split]].
  - intros Hs.
    destruct (uint16_at_is_Some s 0) as [maj ->]; [lia..|].
    destruct (negb (maj =? 1)); [by eexists|].
    destruct (uint16_at_is_Some s 2) as [mn ->]; [lia..|].
    destruct (negb (mn =? 0)); [by eexists|].
    destruct (uint16_at_is_Some s 4) as [nb ->]; [lia..|].
    destruct (negb _); by eexists.
  - intros e.
    destruct (uint16_at s 0) as [maj|] eqn:Hmaj.
    2:{ intros [= <-]. apply Hsome in Hmaj; [|lia]. split; [lia|]. left. split; [done|lia]. }
    destruct (Z.eqb_spec maj 1) as [->|]; simpl negb; cbv iota; [|done].
    destruct (uint16_at s 2) as [mn|] eqn:Hmn.
    2:{ intros [= <-]. apply Hsome in Hmn; [|lia]. split; [lia|].
        right. left. split; [done|]. split; [done|lia]. }
    destruct (Z.eqb_spec mn 0) as [->|]; simpl negb; cbv iota; [|done].
    destruct (uint16_at s 4) as [nb|] eqn:Hnb.
    2:{ intros [= <-]. apply Hsome in Hnb; [|lia]. split; [lia|].
        right. right. done. }
    by destruct (negb _).
  - intros maj -> Hmaj. rewrite (proj2 (Z.eqb_neq maj 1) Hmaj). by eexists.
  - intros mn -> -> Hmn. simpl. rewrite (proj2 (Z.eqb_neq mn 0) Hmn). by eexists.
Qed.

Lemma validate_total_witness :
  (exists r, parser_validate (stream_of (font_header 1 0 2)) = inr r) /\
  (exists msg, parser_validate (stream_of (u16 2)) = inr (VMessage msg)).
Proof.
  split.
  - apply (proj1 (validate_total (stream_of (font_header 1 0 2)))).
    vm_compute. discriminate.
  - apply (proj1 (proj2 (proj2 (validate_total (stream_of (u16 2))))) 2);
      [reflexivity|discriminate].
Defined.

(** ** The font-header table *)


Lemma self_uint_run env key st f :
  lookup_field key (fields st) = Some f ->
  self_uint env key st
  = match field_uint env f with
    | Some v => Done v st
    | None => Raised ReadStreamError st
    end.
Proof.
  intros Hf. unfold self_uint, bind, getitem. rewrite Hf.
  by destruct (field_uint env f).
Qed.

Lemma bind_yield {B} n c sz (k : Field -> Gen B) st f st' :
  yield n c sz st = Done f st' -> bind (yield n c sz) k st = k f st'.
Proof. unfold bind. by intros ->. Qed.


Lemma bind_self_uint {B} env key (k : Z -> Gen B) st f :
  lookup_field key (fields st) = Some f ->
  bind (self_uint env key) k st
  = match field_uint env f with
    | Some v => k v st
    | None => Raised ReadStreamError st
    end.
Proof.
  intros Hf. unfold bind at 1. rewrite (self_uint_run _ _ _ _ Hf).
  by destruct (field_uint env f).
Qed.

Ltac unfold_constructors :=
  unfold UInt16, UInt32, TimestampMac32, Bit, Bits, NullBits, Bytes, RawBytes, String_.

(** Run the yields at the head of a generator applied to a closed state. *)
Ltac run_yield :=
  lazymatch goal with
  | |- bind (yield ?n ?c ?sz) ?k ?st = _ =>
      let o := eval vm_compute in (yield n c sz st) in
      lazymatch o with
      | Done ?f ?st' =>
          let H := fresh in
          assert (H : yield n c sz st = Done f st') by (vm_compute; reflexivity);
          rewrite (bind_yield n c sz k st f st' H); clear H;
          cbv beta
      end
  end.

Ltac run_yields := repeat run_yield.

(** Name the closed state a generator is applied to. *)
Ltac name_state st' :=
  lazymatch goal with
  | |- bind _ _ ?s = _ => change s with st'
  | |- ret _ ?s = _ => change s with st'
  end.






(** ** Fragment groups *)

(** The raw bytes of a fragment are the [field_size // 8] bytes at the
    fragment's own address. *)
Lemma rawdata_value_read item :
  rawdata_value item
  = readBytes (stream (frag_env item)) (absolute_address (frag_env item) + 0)
      (field_size item / 8 * 8 / 8).
Proof. reflexivity. Qed.

Lemma createInputStream_items l h g ds :
  h !! l = Some g ->
  mapM rawdata_value (items g) = Some ds ->
  createInputStream l h = Some (group_stream (concat ds) (parser g) (args g)).
Proof. intros Hl Hds. unfold createInputStream. rewrite Hl. simpl. by rewrite Hds. Qed.

Lemma FragmentGroup_add_lookup l item h g :
  h !! l = Some g ->
  FragmentGroup_add l item h !! l
  = Some {| items := items g ++ [item]; parser := parser g; args := args g |}.
Proof. intros Hl. unfold FragmentGroup_add. by rewrite lookup_alter_eq, Hl. Qed.

Lemma CustomFragment_init_new env nm sz p h :
  let '(f, h') := CustomFragment_init env nm sz p None h in
  h !! group f = None /\
  frag_env f = env /\ field_size f = sz /\
  h' !! group f = Some {| items := [f]; parser := p; args := ∅ |}.
Proof.
  unfold CustomFragment_init, FragmentGroup_init. simpl.
  split; [|split; [done|split; [done|]]].
  - apply not_elem_of_dom, is_fresh.
  - erewrite FragmentGroup_add_lookup by apply lookup_insert_eq. done.
Qed.

Lemma CustomFragment_init_shared env nm sz p l h g :
  h !! l = Some g ->
  let '(f, h') := CustomFragment_init env nm sz p (Some l) h in
  group f = l /\ frag_env f = env /\ field_size f = sz /\
  h' !! l = Some {| items := items g ++ [f]; parser := parser g; args := args g |}.
Proof.
  intros Hl. unfold CustomFragment_init. simpl.
  repeat split. by apply FragmentGroup_add_lookup.
Qed.

Lemma rawdata_value_at item :
  rawdata_value item = raw_bytes_at (frag_env item) (field_size item).
Proof. reflexivity. Qed.

Lemma register_next_inv p l rest :
  forall fs h,
    h !! l = Some {| items := fs; parser := p; args := ∅ |} ->
    Forall (fun f => group f = l) fs ->
    let '(fs', h') := foldl (register_next p l) (fs, h) rest in
    h' !! l = Some {| items := fs'; parser := p; args := ∅ |} /\
    Forall (fun f => group f = l) fs' /\
    map (fun f => (frag_env f, field_size f)) fs'
    = map (fun f => (frag_env f, field_size f)) fs
      ++ map (fun pl : Placement => (pl.1.1, pl.2)) rest.
Proof.
  induction rest as [|[[env nm] sz] rest IH]; intros fs h Hl Hfs.
  - simpl. by rewrite app_nil_r.
  - cbn [foldl].
    change (register_next p l (fs, h) (env, nm, sz))
      with (let '(f, h') := CustomFragment_init env nm sz p (Some l) h in (fs ++ [f], h')).
    pose proof (CustomFragment_init_shared env nm sz p l h _ Hl) as Hinit.
    destruct (CustomFragment_init env nm sz p (Some l) h) as [f h'].
    destruct Hinit as (Hg & He & Hs & Hl'). simpl in Hl'.
    specialize (IH (fs ++ [f]) h' Hl').
    destruct (foldl _ _ rest) as [fs' h''].
    destruct IH as (? & ? & Hmap).
    { apply Forall_app. split; [done|]. by constructor. }
    repeat split; try done.
    rewrite Hmap, map_app. simpl. rewrite He, Hs. by rewrite <- app_assoc.
Qed.

Lemma register_fragments_inv p first rest h :
  let '(fs, h') := register_fragments p first rest h in
  exists l,
    h' !! l = Some {| items := fs; parser := p; args := ∅ |} /\
    Forall (fun f => group f = l) fs /\
    map (fun f => (frag_env f, field_size f)) fs
    = map (fun pl : Placement => (pl.1.1, pl.2)) (first :: rest).
Proof.
  unfold register_fragments. destruct first as [[env1 nm1] sz1].
  pose proof (CustomFragment_init_new env1 nm1 sz1 p h) as Hinit.
  destruct (CustomFragment_init env1 nm1 sz1 p None h) as [f1 h1].
  destruct Hinit as (_ & He & Hs & Hl).
  pose proof (register_next_inv p (group f1) rest [f1] h1 Hl) as Hrest.
  destruct (foldl _ _ rest) as [fs h'].
  destruct Hrest as (? & ? & Hmap); [by repeat constructor|].
  exists (group f1). repeat split; try done.
  rewrite Hmap. simpl. by rewrite He, Hs.
Qed.

(** C2.  [createInputStream()] of a group returns the concatenation of
    the raw bytes of its fragments in registration order, whatever the
    position of each fragment in the outer tree, through any of the
    fragments; nothing is cached, a call after one more registration sees
    the new fragment.  Fragments holding "AB", "CD", "EF", registered in
    this order in one group, give "ABCDEF". *)
Theorem createInputStream_registration_order :
  (forall p first rest h,
     let '(fs, h') := register_fragments p first rest h in
     map (fun f => (frag_env f, field_size f)) fs
       = map (fun pl : Placement => (pl.1.1, pl.2)) (first :: rest) /\
     forall ds, mapM rawdata_value fs = Some ds ->
       forall f, f ∈ fs ->
         CustomFragment_createInputStream f h' = Some (group_stream (concat ds) p ∅)) /\
  (forall l h g ds item d,
     h !! l = Some g ->
     mapM rawdata_value (items g) = Some ds ->
     rawdata_value item = Some d ->
     createInputStream l h = Some (group_stream (concat ds) (parser g) (args g)) /\
     createInputStream l (FragmentGroup_add l item h)
       = Some (group_stream (concat ds ++ d) (parser g) (args g))) /\
  (forall p e1 e2 e3 n1 n2 n3 h,
     raw_bytes_at e1 16 = Some (list_byte_of_string "AB") ->
     raw_bytes_at e2 16 = Some (list_byte_of_string "CD") ->
     raw_bytes_at e3 16 = Some (list_byte_of_string "EF") ->
     let '(fs, h') := register_fragments p (e1, n1, 16) [(e2, n2, 16); (e3, n3, 16)] h in
     forall f, f ∈ fs ->
       stream_data <$> CustomFragment_createInputStream f h'
       = Some (list_byte_of_string "ABCDEF")).
Proof.
  assert (Hgen : forall p first rest h,
     let '(fs, h') := register_fragments p first rest h in
     map (fun f => (frag_env f, field_size f)) fs
       = map (fun pl : Placement => (pl.1.1, pl.2)) (first :: rest) /\
     forall ds, mapM rawdata_value fs = Some ds ->
       forall f, f ∈ fs ->
         CustomFragment_createInputStream f h' = Some (group_stream (concat ds) p ∅)).
  { intros p first rest h.
    pose proof (register_fragments_inv p first rest h) as Hinv.
    destruct (register_fragments p first rest h) as [fs h'].
    destruct Hinv as (l & Hl & Hgroup & Hmap). split; [done|].
    intros ds Hds f Hf. unfold CustomFragment_createInputStream.
    rewrite Forall_forall in Hgroup. rewrite (Hgroup f Hf).
    by rewrite (createInputStream_items l h' _ ds Hl Hds). }
  split; [exact Hgen|]. split.
  - intros l h g ds item d Hl Hds Hd. split.
    + by apply createInputStream_items.
    + rewrite (createInputStream_items l _ _ (ds ++ [d])
                 (FragmentGroup_add_lookup l item h g Hl)).
      * simpl. rewrite concat_app. simpl. by rewrite app_nil_r.
      * simpl. apply mapM_Some. apply mapM_Some in Hds.
        apply Forall2_app; [done|]. by repeat constructor.
  - intros p e1 e2 e3 n1 n2 n3 h H1 H2 H3.
    specialize (Hgen p (e1, n1, 16) [(e2, n2, 16); (e3, n3, 16)] h).
    destruct (register_fragments _ _ _ h) as [fs h'].
    destruct Hgen as [Hmap Hgen]. intros f Hf.
    rewrite (Hgen [list_byte_of_string "AB"; list_byte_of_string "CD";
                   list_byte_of_string "EF"]); [reflexivity| |done].
    destruct fs as [|f1 [|f2 [|f3 [|]]]]; try discriminate.
    simpl in Hmap. injection Hmap as E1 S1 E2 S2 E3 S3.
    apply mapM_Some. repeat constructor; rewrite rawdata_value_at; congruence.
Qed.

Lemma createInputStream_registration_order_witness :
  let '(fs, h') := register_fragments "Parser" (placed_at 6, "fragment[]", 16)
                     [(placed_at 11, "fragment[]", 16); (placed_at 2, "fragment[]", 16)] ∅ in
  forall f, f ∈ fs ->
    stream_data <$> CustomFragment_createInputStream f h'
    = Some (list_byte_of_string "ABCDEF").
Proof.
  apply (proj2 (proj2 createInputStream_registration_order)
           "Parser" (placed_at 6) (placed_at 11) (placed_at 2)); reflexivity.
Defined.

(** ** The name table *)

Lemma uint_be_nonneg bs : 0 <= uint_be bs.
Proof.
  unfold uint_be.
  cut (forall acc, 0 <= acc ->
         0 <= fold_left (fun acc b => acc * 256 + Z.of_N (Byte.to_N b)) bs acc).
  { intros H. by apply H. }
  induction bs as [|b bs IH]; intros acc Hacc; simpl; [done|].
  apply IH. lia.
Qed.

Lemma child_uint_nonneg gen env f key v : child_uint gen env f key = Some v -> 0 <= v.
Proof.
  unfold child_uint, field_uint. intros H.
  destruct (child_getitem gen key); simpl in H; [|done].
  destruct (field_bytes _ _); simpl in H; [|done].
  injection H as <-. apply uint_be_nonneg.
Qed.

Lemma pair_eqb_eq a b : pair_eqb a b = true <-> a = b.
Proof.
  destruct a, b. unfold pair_eqb. simpl.
  rewrite andb_true_iff, !Z.eqb_eq. split; [intros [-> ->]|intros [= -> ->]]; done.
Qed.

Lemma bind_base_offset {B} env (k : Z -> Gen B) st base :
  base_offset env st = Some base ->
  bind (self_uint env "offset") k st = k base st.
Proof.
  unfold base_offset. intros H.
  destruct (lookup_field "offset" (fields st)) as [f|] eqn:Hf; simpl in H; [|done].
  rewrite (bind_self_uint _ _ _ _ _ Hf). by rewrite H.
Qed.

Lemma entry_pair_Some env entry eo el :
  entry_pair env entry = Some (eo, el) <->
  NameHeader.value env entry "offset" = Some eo /\
  NameHeader.value env entry "length" = Some el.
Proof.
  unfold entry_pair.
  destruct (NameHeader.value env entry "offset"); simpl; [|by split; [|intros []]].
  destruct (NameHeader.value env entry "length"); simpl; [|by split; [|intros []]].
  split; [intros [= -> ->]|intros [[= ->] [= ->]]]; done.
Qed.

(** A record whose pair repeats [last] is skipped with the duplicate
    message. *)
Lemma names_step_duplicate env entry st eo el :
  entry_pair env entry = Some (eo, el) ->
  names_step env (Some (eo, el)) entry st
  = Done (Some (eo, el)) (logged st (skip_duplicate_msg entry (eo, el))).
Proof.
  intros [Ho Hl]%entry_pair_Some. unfold names_step.
  rewrite Ho, Hl. unfold bind at 1. simpl decoded. unfold ret at 1.
  unfold bind at 1. unfold ret at 1.
  rewrite (proj2 (pair_eqb_eq (eo, el) (eo, el)) eq_refl).
  reflexivity.
Qed.

(** A record that is not a duplicate and starts before the cursor is
    skipped with the negative-offset message; [last] becomes its pair. *)
Lemma names_step_negative env last entry st eo el base :
  entry_pair env entry = Some (eo, el) ->
  last <> Some (eo, el) ->
  base_offset env st = Some base ->
  eo + base < current_size st / 8 ->
  names_step env last entry st
  = Done (Some (eo, el)) (logged st (skip_negative_msg entry)).
Proof.
  intros [Ho Hl]%entry_pair_Some Hlast Hbase Hneg. unfold names_step.
  rewrite Ho, Hl. unfold bind at 1. simpl decoded. unfold ret at 1.
  unfold bind at 1. unfold ret at 1.
  assert (match last with Some l => pair_eqb l (eo, el) | None => false end = false) as ->.
  { destruct last as [l|]; [|done].
    destruct (pair_eqb l (eo, el)) eqn:E; [|done].
    apply pair_eqb_eq in E. congruence. }
  rewrite (bind_base_offset _ _ _ _ Hbase).
  unfold bind at 1, get_current_size at 1.
  rewrite (proj2 (Z.ltb_lt _ _) Hneg). reflexivity.
Qed.

(** One turn of the walk, case by case. *)
Lemma names_step_unfold env last entry st :
  names_step env last entry st =
  match NameHeader.value env entry "offset" with
  | None => Raised ReadStreamError st
  | Some eo =>
    match NameHeader.value env entry "length" with
    | None => Raised ReadStreamError st
    | Some el =>
      if match last with Some l => pair_eqb l (eo, el) | None => false end
      then Done last (logged st (skip_duplicate_msg entry (eo, el)))
      else
      match lookup_field "offset" (fields st) with
      | None => Raised (MissingField "offset") st
      | Some f =>
        match field_uint env f with
        | None => Raised ReadStreamError st
        | Some base =>
          if eo + base <? current_size st / 8
          then Done (Some (eo, el)) (logged st (skip_negative_msg entry))
          else if (eo + base) * 8 - current_size st <? 0
          then Raised (ParserError "Seek error, unable to go back!") st
          else
          let st1 := after_seek ((eo + base) * 8) false st in
          if negb (el =? 0)
          then match NameHeader.getCharset env entry with
               | None => Raised ReadStreamError st1
               | Some cs =>
                   Done (Some (eo, el))
                     (after_yield "value[]" (FString (Some cs)) (el * 8) st1)
               end
          else Done (Some (eo, el)) st1
        end
      end
    end
  end.
Proof.
  unfold names_step.
  destruct (NameHeader.value env entry "offset") as [eo|]; [|reflexivity].
  destruct (NameHeader.value env entry "length") as [el|]; [|reflexivity].
  unfold bind at 1. simpl decoded. unfold ret at 1.
  unfold bind at 1. unfold ret at 1.
  destruct (match last with Some l => pair_eqb l (eo, el) | None => false end);
    [reflexivity|].
  unfold bind at 1. unfold self_uint, bind at 1, getitem.
  destruct (lookup_field "offset" (fields st)) as [f|]; [|reflexivity].
  unfold decoded. destruct (field_uint env f) as [base|]; [|reflexivity].
  unfold ret at 1. unfold bind at 1, get_current_size.
  destruct (eo + base <? current_size st / 8); [reflexivity|].
  unfold bind at 1, seekByte, seekBit, after_seek.
  destruct ((eo + base) * 8 - current_size st <? 0); [reflexivity|].
  destruct (0 <? (eo + base) * 8 - current_size st).
  - cbv zeta. destruct (negb (el =? 0)); [|reflexivity].
    unfold bind at 1. unfold yield_if, bind at 1, yield at 1, ret at 1.
    destruct (NameHeader.getCharset env entry); reflexivity.
  - cbv zeta. destruct (negb (el =? 0)); [|reflexivity].
    unfold bind at 1. unfold yield_if, ret at 1.
    destruct (NameHeader.getCharset env entry); reflexivity.
Qed.

Lemma after_seek_fields target null st :
  fields (after_seek target null st) = fields st ++ padding_to target null st.
Proof.
  unfold after_seek, padding_to.
  replace (0 <? target - current_size st) with (current_size st <? target)
    by (destruct (Z.ltb_spec (current_size st) target), (Z.ltb_spec 0 (target - current_size st));
        try done; lia).
  destruct (current_size st <? target); simpl; [done|by rewrite app_nil_r].
Qed.

Lemma after_seek_current_size target null st :
  current_size st <= target -> current_size (after_seek target null st) = target.
Proof.
  intros H. unfold after_seek.
  destruct (Z.ltb_spec 0 (target - current_size st)); simpl; lia.
Qed.

Lemma after_seek_log target null st : log (after_seek target null st) = log st.
Proof. unfold after_seek. by destruct (0 <? _). Qed.

Lemma base_offset_prefix env st st' base :
  fields st `prefix_of` fields st' ->
  base_offset env st = Some base -> base_offset env st' = Some base.
Proof.
  unfold base_offset. intros Hpre H.
  destruct (lookup_field "offset" (fields st)) as [f|] eqn:Hf; [|done].
  by rewrite (lookup_field_prefix _ _ _ _ Hpre Hf).
Qed.

Lemma getCharset_value_nonneg env entry key v :
  NameHeader.value env entry key = Some v -> 0 <= v.
Proof. apply child_uint_nonneg. Qed.

(** A turn of the walk moves the cursor forward only, keeps it on a byte
    boundary and only appends fields. *)
Lemma names_step_forward env last entry st last' st' :
  names_step env last entry st = Done last' st' ->
  current_size st <= current_size st' /\
  (current_size st mod 8 = 0 -> current_size st' mod 8 = 0) /\
  fields st `prefix_of` fields st'.
Proof.
  rewrite names_step_unfold.
  destruct (NameHeader.value env entry "offset") as [eo|]; [|done].
  destruct (NameHeader.value env entry "length") as [el|] eqn:Hel; [|done].
  apply getCharset_value_nonneg in Hel.
  destruct (match last with Some l => pair_eqb l (eo, el) | None => false end).
  { intros [= <- <-]. simpl. done. }
  destruct (lookup_field "offset" (fields st)) as [f|]; [|done].
  destruct (field_uint env f) as [base|]; [|done].
  destruct (eo + base <? current_size st / 8).
  { intros [= <- <-]. simpl. done. }
  destruct (Z.ltb_spec ((eo + base) * 8 - current_size st) 0) as [|Hseek]; [done|].
  cbv zeta.
  assert (Hcur : current_size (after_seek ((eo + base) * 8) false st) = (eo + base) * 8)
    by (apply after_seek_current_size; lia).
  assert (Hpre : fields st `prefix_of` fields (after_seek ((eo + base) * 8) false st))
    by (rewrite after_seek_fields; apply prefix_app_r; done).
  assert (Hal : current_size st mod 8 = 0 ->
                current_size (after_seek ((eo + base) * 8) false st) mod 8 = 0)
    by (intros _; rewrite Hcur; apply Z.mod_mul; lia).
  destruct (negb (el =? 0)).
  - destruct (NameHeader.getCharset env entry) as [cs|]; [|done].
    intros [= <- <-]. simpl. rewrite Hcur. repeat split.
    + lia.
    + intros _. replace ((eo + base) * 8 + el * 8) with ((eo + base + el) * 8) by lia.
      apply Z.mod_mul. lia.
    + etrans; [exact Hpre|]. by apply prefix_app_r.
  - intros [= <- <-]. repeat split; [lia|exact Hal|exact Hpre].
Qed.

Lemma names_walk_to_forward env entries :
  forall last st last' st',
    names_walk_to env last entries st = Done last' st' ->
    current_size st <= current_size st' /\
    (current_size st mod 8 = 0 -> current_size st' mod 8 = 0) /\
    fields st `prefix_of` fields st'.
Proof.
  induction entries as [|e entries IH]; intros last st last' st'; simpl.
  - intros [= <- <-]. done.
  - unfold bind at 1.
    destruct (names_step env last e st) as [l1 st1|] eqn:Hstep; [|done].
    intros Hrest. apply names_step_forward in Hstep as (H1 & H2 & H3).
    apply IH in Hrest as (H4 & H5 & H6).
    repeat split; [lia|tauto|by etrans].
Qed.

Lemma names_walk_app env l1 l2 :
  forall last st,
    names_walk env last (l1 ++ l2) st
    = match names_walk_to env last l1 st with
      | Done last' st' => names_walk env last' l2 st'
      | Raised e st' => Raised e st'
      end.
Proof.
  induction l1 as [|e l1 IH]; intros last st; [done|].
  cbn [names_walk names_walk_to app]. unfold bind.
  destruct (names_step env last e st) as [l' st'|]; [|done].
  apply IH.
Qed.

(** A record whose start lies before the cursor is skipped with exactly
    one anomaly, whatever [last] is. *)
Lemma names_step_behind env last entry st eo el base :
  entry_pair env entry = Some (eo, el) ->
  base_offset env st = Some base ->
  eo + base < current_size st / 8 ->
  (last = Some (eo, el) /\
   names_step env last entry st = Done last (logged st (skip_duplicate_msg entry (eo, el))))
  \/
  (last <> Some (eo, el) /\
   names_step env last entry st = Done (Some (eo, el)) (logged st (skip_negative_msg entry))).
Proof.
  intros Hp Hb Hneg.
  destruct (decide (last = Some (eo, el))) as [->|Hne].
  - left. split; [done|]. by apply names_step_duplicate.
  - right. split; [done|]. by eapply names_step_negative.
Qed.

Lemma after_seek_produced target null st :
  current_size st <= target ->
  after_seek target null st = produced st (padding_to target null st) target.
Proof.
  intros H. unfold after_seek, padding_to, produced, after_yield.
  destruct (Z.ltb_spec 0 (target - current_size st)),
           (Z.ltb_spec (current_size st) target); try lia; simpl.
  - f_equal. lia.
  - destruct st as [cur fs lg]; simpl in *. rewrite app_nil_r. f_equal. lia.
Qed.

(** A record that is not a duplicate and does not start before the
    cursor: padding up to its start if needed, then its string. *)
Lemma names_step_emit env last entry st eo el base cs :
  entry_pair env entry = Some (eo, el) ->
  el <> 0 ->
  NameHeader.getCharset env entry = Some cs ->
  last <> Some (eo, el) ->
  base_offset env st = Some base ->
  current_size st <= (eo + base) * 8 ->
  let pad := padding_to ((eo + base) * 8) false st in
  let value := mkField (unique_name "value[]" (fields st ++ pad))
                 ((eo + base) * 8) (el * 8) (FString (Some cs)) in
  names_step env last entry st
  = Done (Some (eo, el)) (produced st (pad ++ [value]) ((eo + base) * 8 + el * 8)).
Proof.
  intros [Ho Hl]%entry_pair_Some Hel Hcs Hlast Hbase Hcur. cbv zeta.
  rewrite names_step_unfold, Ho, Hl.
  assert (match last with Some l => pair_eqb l (eo, el) | None => false end = false) as ->.
  { destruct last as [l|]; [|done].
    destruct (pair_eqb l (eo, el)) eqn:E; [|done].
    apply pair_eqb_eq in E. congruence. }
  unfold base_offset in Hbase.
  destruct (lookup_field "offset" (fields st)) as [f|]; [|done]. simpl in Hbase.
  rewrite Hbase.
  destruct (Z.ltb_spec (eo + base) (current_size st / 8)) as [Hlt|_].
  { exfalso. pose proof (Z.mul_div_le (current_size st) 8). lia. }
  destruct (Z.ltb_spec ((eo + base) * 8 - current_size st) 0); [lia|].
  cbv zeta. rewrite (proj2 (Z.eqb_neq el 0) Hel). simpl negb. cbv iota.
  rewrite Hcs, after_seek_produced by done.
  unfold after_yield, produced. simpl. by rewrite <- app_assoc.
Qed.

(** C7.  In the walk of the name table, a record whose absolute offset
    (its own offset plus the base of the string block) lies before the
    cursor is skipped: one anomaly is logged, no field is produced, the
    cursor does not move, no error is raised, and the walk goes on with the
    remaining records. *)
Theorem names_negative_offset_skipped
    (env : FieldSetEnv) (last : option (Z * Z)) (entry : Field) (rest : list Field)
    (st : FieldSetState) (eo el base : Z) :
  entry_pair env entry = Some (eo, el) ->
  base_offset env st = Some base ->
  eo + base < current_size st / 8 ->
  exists msg last',
    names_step env last entry st = Done last' (logged st msg) /\
    fields (logged st msg) = fields st /\
    current_size (logged st msg) = current_size st /\
    log (logged st msg) = log st ++ [msg] /\
    names_walk env last (entry :: rest) st = names_walk env last' rest (logged st msg) /\
    (last <> Some (eo, el) -> msg = skip_negative_msg entry /\ last' = Some (eo, el)).
Proof.
  intros Hp Hb Hneg.
  destruct (names_step_behind env last entry st eo el base Hp Hb Hneg)
    as [[Hl Hstep]|[Hl Hstep]].
  - exists (skip_duplicate_msg entry (eo, el)), last. repeat split; try done.
    cbn [names_walk]. unfold bind at 1. by rewrite Hstep.
  - exists (skip_negative_msg entry), (Some (eo, el)). repeat split; try done.
    cbn [names_walk]. unfold bind at 1. by rewrite Hstep.
Qed.

Lemma names_negative_offset_skipped_witness :
  exists msg last',
    names_step names_env (Some (0, 4)) header_1 names_first_walked
      = Done last' (logged names_first_walked msg) /\
    fields (logged names_first_walked msg) = fields names_first_walked /\
    current_size (logged names_first_walked msg) = current_size names_first_walked /\
    log (logged names_first_walked msg) = log names_first_walked ++ [msg] /\
    names_walk names_env (Some (0, 4)) [header_1; header_2] names_first_walked
      = names_walk names_env last' [header_2] (logged names_first_walked msg) /\
    (Some (0, 4) <> Some (2, 4) ->
     msg = skip_negative_msg header_1 /\ last' = Some (2, 4)).
Proof.
  apply (names_negative_offset_skipped names_env (Some (0, 4)) header_1 [header_2]
           names_first_walked 2 4 42); [reflexivity|reflexivity|].
  vm_compute. reflexivity.
Defined.

Lemma names_walk_to_duplicates env eo el dups :
  Forall (fun e => entry_pair env e = Some (eo, el)) dups ->
  forall st,
    names_walk_to env (Some (eo, el)) dups st
    = Done (Some (eo, el))
        (logged_all st (map (fun e => skip_duplicate_msg e (eo, el)) dups)).
Proof.
  induction 1 as [|e dups He _ IH]; intros st.
  - simpl. unfold ret, logged_all. destruct st; simpl. by rewrite app_nil_r.
  - cbn [names_walk_to]. unfold bind at 1.
    rewrite (names_step_duplicate _ _ _ _ _ He), IH.
    unfold logged_all, logged. simpl. by rewrite <- app_assoc.
Qed.

Lemma names_walk_cons env last e rest st :
  names_walk env last (e :: rest) st
  = match names_step env last e st with
    | Done last' st' => names_walk env last' rest st'
    | Raised err st' => Raised err st'
    end.
Proof. reflexivity. Qed.

(** C10 as stated fails.  In this table [header[1]] (pair (2, 4)) starts
    before the cursor and is skipped; [header[3]] has the same pair, but
    [header[2]], of pair (2, 5), comes between them and replaces [last]:
    [header[3]] is not compared with [header[1]] and is not dropped as a
    duplicate.  It is skipped for its backward offset. *)
Lemma names_later_record_not_duplicate :
  entry_pair names_interleaved_env header_1 = Some (2, 4) /\
  entry_pair names_interleaved_env header_2 = Some (2, 5) /\
  entry_pair names_interleaved_env header_3 = Some (2, 4) /\
  exists st,
    parseNames names_interleaved_env new_fieldset = Done tt st /\
    log st = ["Skip value header[1] (negative offset)";
              "Skip value header[2] (negative offset)";
              "Skip value header[3] (negative offset)"] /\
    ~ In (skip_duplicate_msg header_3 (2, 4)) (log st) /\
    List.filter is_string (fields st)
    = [mkField "value[0]" 432 32 (FString (Some ASCII))].
Proof.
  split; [reflexivity|]. split; [reflexivity|]. split; [reflexivity|].
  eexists. split; [vm_compute; reflexivity|].
  split; [reflexivity|]. split; [|reflexivity].
  vm_compute. intros [H|[H|[H|[]]]]; discriminate H.
Qed.

(** C10, amended.  The duplicate-detection state [last] is set to a
    record's pair before the record is tested for a backward offset: a
    record skipped for its backward offset still becomes [last], so the
    records that directly follow it with the same (offset, length) pair are
    dropped as duplicates, each with the duplicate anomaly; none of them
    produces a field.  A later record with this pair that the walk reaches
    is dropped as well, with one anomaly and no field: as a duplicate when
    [last] still is this pair, for its backward offset when a record of
    another pair has come between. *)
Theorem names_skipped_record_shadows_duplicate
    (env : FieldSetEnv) (last : option (Z * Z)) (e1 : Field) (dups rest : list Field)
    (st : FieldSetState) (eo el base : Z) :
  entry_pair env e1 = Some (eo, el) ->
  Forall (fun e => entry_pair env e = Some (eo, el)) dups ->
  last <> Some (eo, el) ->
  base_offset env st = Some base ->
  eo + base < current_size st / 8 ->
  let st1 := logged st (skip_negative_msg e1) in
  names_step env last e1 st = Done (Some (eo, el)) st1 /\
  (forall e2, entry_pair env e2 = Some (eo, el) ->
     names_step env (Some (eo, el)) e2 st1
     = Done (Some (eo, el)) (logged st1 (skip_duplicate_msg e2 (eo, el)))) /\
  names_walk env last (e1 :: dups ++ rest) st
  = names_walk env (Some (eo, el)) rest
      (logged_all st (skip_negative_msg e1
                      :: map (fun e => skip_duplicate_msg e (eo, el)) dups)) /\
  (forall mid e2 last2 st2,
     entry_pair env e2 = Some (eo, el) ->
     names_walk_to env (Some (eo, el)) mid st1 = Done last2 st2 ->
     (last2 = Some (eo, el) /\
      names_step env last2 e2 st2
      = Done last2 (logged st2 (skip_duplicate_msg e2 (eo, el))))
     \/
     (last2 <> Some (eo, el) /\
      names_step env last2 e2 st2
      = Done (Some (eo, el)) (logged st2 (skip_negative_msg e2)))).
Proof.
  intros Hp Hdups Hlast Hbase Hneg st1.
  pose proof (names_step_negative env last e1 st eo el base Hp Hlast Hbase Hneg) as Hstep.
  split; [exact Hstep|]. split; [|split].
  - intros e2 He2. by apply names_step_duplicate.
  - rewrite names_walk_cons, Hstep, names_walk_app.
    rewrite (names_walk_to_duplicates _ _ _ _ Hdups).
    unfold logged_all, logged. simpl. by rewrite <- app_assoc.
  - intros mid e2 last2 st2 He2 Hmid.
    apply names_walk_to_forward in Hmid as (Hcur & _ & Hpre).
    assert (Hb2 : base_offset env st2 = Some base)
      by (eapply base_offset_prefix; [exact Hpre|exact Hbase]).
    assert (Hneg2 : eo + base < current_size st2 / 8).
    { eapply Z.lt_le_trans; [exact Hneg|]. apply Z.div_le_mono; [lia|exact Hcur]. }
    exact (names_step_behind env last2 e2 st2 eo el base He2 Hb2 Hneg2).
Qed.

Lemma names_skipped_record_shadows_duplicate_witness :
  names_walk names_env (Some (0, 4)) (header_1 :: [header_2] ++ []) names_first_walked
  = names_walk names_env (Some (2, 4)) []
      (logged_all names_first_walked
         [skip_negative_msg header_1; skip_duplicate_msg header_2 (2, 4)]).
Proof.
  refine (proj1 (proj2 (proj2
    (names_skipped_record_shadows_duplicate names_env (Some (0, 4)) header_1 [header_2] []
       names_first_walked 2 4 42 eq_refl _ _ eq_refl _)))).
  - repeat constructor.
  - discriminate.
  - vm_compute. reflexivity.
Defined.




(** ** The table directory *)

(** One turn of the loop over the sorted directory, case by case. *)
Lemma table_step_unfold env table st :
  TrueTypeFontFile.table_step env table st =
  match TableHeader.value env table "offset" with
  | None => Raised ReadStreamError st
  | Some off =>
    if off * 8 - current_size st <? 0
    then Raised (ParserError "Seek error, unable to go back!") st
    else
    let st1 := after_seek (off * 8) true st in
    match TableHeader.value env table "size" with
    | None => Raised ReadStreamError st1
    | Some sz =>
      if negb (sz =? 0)
      then match TableHeader.tag env table with
           | None => Raised ReadStreamError st1
           | Some tag =>
               Done tt (after_yield (table_name_parser tag).1
                          (FTable (name table) (table_name_parser tag).2) (sz * 8) st1)
           end
      else Done tt st1
    end
  end.
Proof.
  unfold TrueTypeFontFile.table_step.
  destruct (TableHeader.value env table "offset") as [off|]; [|reflexivity].
  unfold bind at 1. simpl decoded. unfold ret at 1.
  unfold bind at 1, seekByte, seekBit, after_seek.
  destruct (off * 8 - current_size st <? 0); [reflexivity|].
  cbv zeta.
  assert (Hrest : forall st1 : FieldSetState,
    (size <- decoded (TableHeader.value env table "size") ;;
     if negb (size =? 0)
     then t <- Table.init env "table[]" table ;; yield t.1 t.2 (size * 8) ;; ret tt
     else ret tt) st1
    = match TableHeader.value env table "size" with
      | None => Raised ReadStreamError st1
      | Some sz =>
        if negb (sz =? 0)
        then match TableHeader.tag env table with
             | None => Raised ReadStreamError st1
             | Some tag =>
                 Done tt (after_yield (table_name_parser tag).1
                            (FTable (name table) (table_name_parser tag).2) (sz * 8) st1)
             end
        else Done tt st1
      end).
  { intros st1.
    destruct (TableHeader.value env table "size") as [sz|]; [|reflexivity].
    unfold bind at 1. simpl decoded. unfold ret at 1.
    destruct (negb (sz =? 0)); [|reflexivity].
    unfold bind at 1, Table.init, table_name_parser.
    destruct (TableHeader.tag env table) as [tag|]; [|reflexivity].
    unfold bind at 1. simpl decoded. unfold ret at 1.
    destruct (Table.TAG_INFO !! tag) as [[[n d] p]|]; reflexivity. }
  destruct (0 <? off * 8 - current_size st).
  - unfold bind at 1. unfold yield_if, bind at 1, yield at 1, ret at 1.
    apply Hrest.
  - unfold bind at 1. unfold yield_if, ret at 1. apply Hrest.
Qed.

Lemma table_refs_app l1 l2 : table_refs (l1 ++ l2) = table_refs l1 ++ table_refs l2.
Proof. apply omap_app. Qed.

Lemma table_refs_padding target null st : table_refs (padding_to target null st) = [].
Proof. unfold padding_to. by destruct (current_size st <? target). Qed.

Lemma nonempty_tables_cons env t tables :
  nonempty_tables env (t :: tables)
  = nonempty_tables env [t] ++ nonempty_tables env tables.
Proof.
  unfold nonempty_tables. simpl. by destruct (bool_decide _).
Qed.

(** The fields one turn appends: padding, and a table field exactly when
    the turn completes on a record of nonzero size. *)
Lemma table_step_fields env t st :
  exists new,
    fields (final_state (TrueTypeFontFile.table_step env t st)) = fields st ++ new /\
    match TrueTypeFontFile.table_step env t st with
    | Done _ _ => table_refs new = map name (nonempty_tables env [t])
    | Raised _ _ => table_refs new = []
    end.
Proof.
  rewrite table_step_unfold. unfold nonempty_tables. simpl List.filter.
  destruct (TableHeader.value env t "offset") as [off|].
  2:{ exists []. by rewrite app_nil_r. }
  destruct (off * 8 - current_size st <? 0).
  { exists []. by rewrite app_nil_r. }
  cbv zeta.
  destruct (TableHeader.value env t "size") as [sz|].
  2:{ exists (padding_to (off * 8) true st). simpl.
      by rewrite after_seek_fields, table_refs_padding. }
  destruct (Z.eqb_spec sz 0) as [->|Hsz]; simpl negb; cbv iota.
  - exists (padding_to (off * 8) true st). simpl.
    by rewrite after_seek_fields, table_refs_padding.
  - rewrite bool_decide_eq_true_2 by congruence.
    destruct (TableHeader.tag env t) as [tag|].
    2:{ exists (padding_to (off * 8) true st). simpl.
        by rewrite after_seek_fields, table_refs_padding. }
    eexists. simpl. rewrite after_seek_fields, <- app_assoc. split; [reflexivity|].
    by rewrite table_refs_app, table_refs_padding.
Qed.

(** The table fields the loop produces name the records in the order the
    loop is given them, without the records of size zero; a loop that is
    cut short by an exception has produced a first part of them. *)
Lemma emit_tables_refs env tables :
  forall st,
  exists new,
    fields (final_state (TrueTypeFontFile.emit_tables env tables st)) = fields st ++ new /\
    table_refs new `prefix_of` map name (nonempty_tables env tables) /\
    (forall st', TrueTypeFontFile.emit_tables env tables st = Done tt st' ->
       table_refs new = map name (nonempty_tables env tables)).
Proof.
  induction tables as [|t tables IH]; intros st.
  - exists []. simpl. by rewrite app_nil_r.
  - cbn [TrueTypeFontFile.emit_tables]. rewrite final_state_bind.
    rewrite nonempty_tables_cons, map_app.
    destruct (table_step_fields env t st) as (new1 & Hf1 & Hr1).
    unfold bind.
    destruct (TrueTypeFontFile.table_step env t st) as [[] st1|e st1]; simpl in Hf1.
    + destruct (IH st1) as (new2 & Hf2 & Hp2 & Hd2).
      exists (new1 ++ new2). rewrite Hf2, Hf1, <- app_assoc, table_refs_app, Hr1.
      split; [done|]. split.
      * by apply prefix_app.
      * intros st' Hdone. by rewrite (Hd2 st' Hdone).
    + exists new1. rewrite Hr1. split; [done|]. split; [|done].
      apply prefix_nil.
Qed.

Lemma with_keys_Done key tables :
  forall st keyed st',
    with_keys key tables st = Done keyed st' ->
    st' = st /\ map snd keyed = tables /\ Forall (fun x => key x.2 = Some x.1) keyed.
Proof.
  induction tables as [|t tables IH]; intros st keyed st'; simpl.
  - intros [= <- <-]. done.
  - unfold bind at 1. destruct (key t) as [k|] eqn:Hk; simpl; [|done].
    unfold ret at 1. unfold bind at 1.
    destruct (with_keys key tables st) as [ks st1|] eqn:Hks; [|done].
    intros [= <- <-]. apply IH in Hks as (-> & <- & HF).
    repeat split. by constructor.
Qed.

Lemma read_records_fields k nm c gen sub :
  gen new_fieldset = Done tt sub ->
  forall st,
  exists tables st',
    read_records k nm c gen st = Done tables st' /\
    fields st' = fields st ++ tables /\
    length tables = k /\
    Forall (fun f => class f = c) tables.
Proof.
  intros Hgen. induction k as [|k IH]; intros st.
  - exists [], st. simpl. by rewrite app_nil_r.
  - cbn [read_records]. unfold yield_fieldset. rewrite Hgen.
    set (f := mkField (unique_name nm (fields st)) (current_size st) (current_size sub) c).
    set (st1 := {| current_size := current_size st + current_size sub;
                   fields := fields st ++ [f]; log := log st |}).
    destruct (IH st1) as (tables & st' & Hrec & Hf & Hlen & Hcls).
    exists (f :: tables), st'. split; [|split; [|split]].
    + rewrite (bind_yield nm c (current_size sub) _ st f st1 eq_refl).
      unfold bind at 1. by rewrite Hrec.
    + rewrite Hf. simpl. by rewrite <- app_assoc.
    + simpl. by rewrite Hlen.
    + by constructor.
Qed.

Lemma table_refs_of_class (c : FieldClass) (l : list Field) :
  (forall t p, c <> FTable t p) ->
  Forall (fun f => class f = c) l -> table_refs l = [].
Proof.
  intros Hc. induction 1 as [|f l Hf _ IH]; [done|].
  unfold table_refs in *. simpl. unfold table_ref at 1. rewrite Hf.
  destruct c as [| | | | | | | | | | | |t p]; try done. by destruct (Hc t p).
Qed.

(** The whole root parser: once the directory is read and its keys are
    decoded, the table fields produced name the records in sorted order. *)
Lemma createFields_table_order s nb :
  uint16_at s 4 = Some nb ->
  exists tables st1,
    read_records (Z.to_nat nb) "table_hdr[]" FTableHeader TableHeader.createFields
      header_produced = Done tables st1 /\
    length tables = Z.to_nat nb /\
    forall keyed st1',
      with_keys (offset_key (root_env s)) tables st1 = Done keyed st1' ->
      let sorted := map snd (sort_by_key keyed) in
      let run := TrueTypeFontFile.createFields (root_env s) new_fieldset in
      table_refs (fields (final_state run))
        `prefix_of` map name (nonempty_tables (root_env s) sorted) /\
      (forall st, run = Done tt st ->
         table_refs (fields st) = map name (nonempty_tables (root_env s) sorted)).
Proof.
  intros Hnb.
  destruct (read_records_fields (Z.to_nat nb) "table_hdr[]" FTableHeader
              TableHeader.createFields _ eq_refl header_produced)
    as (tables & st1 & Hrec & Hf1 & Hlen & Hcls).
  exists tables, st1. split; [exact Hrec|]. split; [exact Hlen|].
  intros keyed st1' Hkeys sorted run.
  pose proof (with_keys_Done _ _ _ _ _ Hkeys) as (-> & _ & _).
  assert (Hrefs1 : table_refs (fields st1) = []).
  { rewrite Hf1, table_refs_app.
    by rewrite (table_refs_of_class FTableHeader tables). }
  assert (Hrun : run =
    (TrueTypeFontFile.emit_tables (root_env s) sorted ;;
     padding <- seekBit (self_size (root_env s)) true ;;
     yield_if padding) st1).
  { unfold run. rewrite createFields_split. unfold directory_and_tables.
    rewrite (bind_self_uint (root_env s) "nb_table" _ header_produced
               (mkField "nb_table" 32 16 FUInt16) eq_refl).
    change (field_uint (root_env s) (mkField "nb_table" 32 16 FUInt16))
      with (uint16_at s 4).
    rewrite Hnb. unfold bind at 1. rewrite Hrec.
    unfold bind at 1, sort_fields, bind at 1.
    unfold offset_key in Hkeys. rewrite Hkeys. reflexivity. }
  rewrite Hrun. clear Hrun run.
  destruct (emit_tables_refs (root_env s) sorted st1) as (new & Hf2 & Hp2 & Hd2).
  unfold bind at 1 3.
  destruct (TrueTypeFontFile.emit_tables (root_env s) sorted st1) as [[] st2|e st2];
    simpl in Hf2.
  - specialize (Hd2 st2 eq_refl).
    assert (Hrefs2 : table_refs (fields st2) = map name (nonempty_tables (root_env s) sorted))
      by (by rewrite Hf2, table_refs_app, Hrefs1).
    unfold bind, seekBit.
    destruct (self_size (root_env s) - current_size st2 <? 0).
    { simpl. rewrite Hrefs2. done. }
    destruct (0 <? self_size (root_env s) - current_size st2).
    + unfold yield_if, bind, yield, ret. simpl.
      rewrite table_refs_app, Hrefs2. simpl. rewrite app_nil_r.
      split; [done|]. intros st [= <-]. simpl.
      rewrite table_refs_app, Hrefs2. simpl. by rewrite app_nil_r.
    + unfold yield_if, ret. simpl. rewrite Hrefs2.
      split; [done|]. intros st [= <-]. exact Hrefs2.
  - simpl. rewrite Hf2, table_refs_app, Hrefs1. done.
Qed.

(** C1.  The directory records, read in file order, are processed in
    ascending order of their declared offset: the loop over the tables runs
    on the stable sort of the records by offset (sorted, a permutation,
    records of equal offset in file order), and the table fields it
    produces name the records in that order.  Records with offsets
    200, 50, 120 come in the order 50, 120, 200. *)
Theorem tables_processed_by_offset :
  (forall keyed : list (Z * Field),
     Sorted key_le (sort_by_key keyed) /\
     sort_by_key keyed ≡ₚ keyed /\
     forall k : Z, filter (fun x => fst x = k) (sort_by_key keyed)
                   = filter (fun x => fst x = k) keyed) /\
  (forall key tables st,
     sort_fields key tables st
     = match with_keys key tables st with
       | Done keyed st' => Done (map snd (sort_by_key keyed)) st'
       | Raised e st' => Raised e st'
       end) /\
  (forall key tables st keyed st',
     with_keys key tables st = Done keyed st' ->
     st' = st /\ map snd keyed = tables /\ Forall (fun x => key x.2 = Some x.1) keyed) /\
  (forall env sorted st,
     exists new,
       fields (final_state (TrueTypeFontFile.emit_tables env sorted st)) = fields st ++ new /\
       table_refs new `prefix_of` map name (nonempty_tables env sorted) /\
       (forall st', TrueTypeFontFile.emit_tables env sorted st = Done tt st' ->
          table_refs new = map name (nonempty_tables env sorted))) /\
  (forall s nb,
     uint16_at s 4 = Some nb ->
     exists tables st1,
       read_records (Z.to_nat nb) "table_hdr[]" FTableHeader TableHeader.createFields
         header_produced = Done tables st1 /\
       length tables = Z.to_nat nb /\
       forall keyed st1',
         with_keys (offset_key (root_env s)) tables st1 = Done keyed st1' ->
         let sorted := map snd (sort_by_key keyed) in
         let run := TrueTypeFontFile.createFields (root_env s) new_fieldset in
         table_refs (fields (final_state run))
           `prefix_of` map name (nonempty_tables (root_env s) sorted) /\
         (forall st, run = Done tt st ->
            table_refs (fields st) = map name (nonempty_tables (root_env s) sorted))) /\
  (forall a b c : Field,
     sort_by_key [(200, a); (50, b); (120, c)] = [(50, b); (120, c); (200, a)]).
Proof.
  split; [|split; [|split; [|split; [|split]]]].
  - intros keyed. split; [apply sort_by_key_sorted|].
    split; [apply sort_by_key_perm|]. intros k. apply sort_by_key_stable.
  - intros key tables st. unfold sort_fields, bind.
    by destruct (with_keys key tables st).
  - apply with_keys_Done.
  - intros env sorted st. apply emit_tables_refs.
  - apply createFields_table_order.
  - reflexivity.
Qed.

Lemma tables_processed_by_offset_witness :
  exists st,
    TrueTypeFontFile.createFields (root_env (stream_of font_tables)) new_fieldset
    = Done tt st /\
    table_refs (fields st) = ["table_hdr[1]"; "table_hdr[2]"].
Proof.
  destruct (proj1 (proj2 (proj2 (proj2 (proj2 tables_processed_by_offset))))
              (stream_of font_tables) 3) as (tables & st1 & Hrec & _ & Horder).
  { vm_compute. reflexivity. }
  vm_compute in Hrec. injection Hrec as <- <-.
  destruct (Horder [(70, table_hdr_0); (60, table_hdr_1); (72, table_hdr_2)]
              font_tables_indexed) as [_ Hdone].
  { vm_compute. reflexivity. }
  eexists. split; [vm_compute; reflexivity|].
  etransitivity; [apply Hdone; vm_compute; reflexivity|].
  vm_compute. reflexivity.
Defined.

(** With exactly the three records of the example in a file, the record
    at byte 50 lies inside the directory (bytes 0..59): it is the first one
    processed, and the seek back to it is a fatal error. *)
Lemma offset_inside_directory :
  exists st,
    TrueTypeFontFile.createFields (root_env (stream_of font_200_50_120)) new_fieldset
    = Raised (ParserError "Seek error, unable to go back!") st /\
    current_size st = 60 * 8 /\ table_refs (fields st) = [].
Proof. eexists. split; [vm_compute; reflexivity|]. split; reflexivity. Qed.

(** * Further properties *)

(** ** Gapless layout *)

Lemma contiguous_app a l1 l2 c :
  contiguous a (l1 ++ l2) c <-> exists b, contiguous a l1 b /\ contiguous b l2 c.
Proof.
  revert a. induction l1 as [|f l1 IH]; intros a; simpl.
  - split; [intros H; by exists a|intros (b & -> & H); done].
  - rewrite IH. split.
    + intros (Hf & b & H1 & H2). exists b. done.
    + intros (b & (Hf & H1) & H2). split; [done|]. by exists b.
Qed.

Lemma tiled_after_yield n c sz st : tiled st -> tiled (after_yield n c sz st).
Proof.
  unfold tiled, after_yield. simpl. intros H.
  apply contiguous_app. exists (current_size st). split; [done|]. simpl. done.
Qed.

Section Preservation.
Variable P : FieldSetState -> Prop.
Hypothesis P_yield : forall n c sz st, P st -> P (after_yield n c sz st).
Hypothesis P_error : forall msg st, P st -> P (logged st msg).

Lemma preserves_ret {A} (a : A) : preserves P (ret a).
Proof. by intros st. Qed.

Lemma preserves_raise {A} e : preserves P (@raise A e).
Proof. by intros st. Qed.

Lemma preserves_bind {A B} (m : Gen A) (k : A -> Gen B) :
  preserves P m -> (forall a, preserves P (k a)) -> preserves P (bind m k).
Proof.
  intros Hm Hk st HP. rewrite final_state_bind.
  specialize (Hm st HP). destruct (m st) as [a st'|e st']; simpl in *; [|done].
  by apply Hk.
Qed.

Lemma preserves_yield n c sz : preserves P (yield n c sz).
Proof. intros st HP. by apply (P_yield n c sz). Qed.

Lemma preserves_error msg : preserves P (error msg).
Proof. intros st HP. by apply (P_error msg). Qed.

Lemma preserves_getitem key : preserves P (getitem key).
Proof. intros st HP. unfold getitem. by destruct (lookup_field _ _). Qed.

Lemma preserves_decoded {A} (v : option A) : preserves P (decoded v).
Proof. destruct v; [apply preserves_ret|apply preserves_raise]. Qed.

Lemma preserves_get_current_size : preserves P get_current_size.
Proof. by intros st. Qed.

Lemma preserves_seekBit a null : preserves P (seekBit a null).
Proof.
  intros st HP. unfold seekBit.
  destruct (_ <? 0); [done|]. by destruct (0 <? _).
Qed.

Ltac solve_preserves :=
  repeat first
    [ apply preserves_ret | apply preserves_raise | apply preserves_yield
    | apply preserves_error | apply preserves_getitem | apply preserves_decoded
    | apply preserves_get_current_size | apply preserves_seekBit
    | assumption
    | apply preserves_bind; [|intros ?]
    | match goal with
      | |- preserves _ (if ?b then _ else _) => destruct b
      | |- preserves _ (match ?o with Some _ => _ | None => _ end) => destruct o
      | |- preserves _ (match ?o with Done _ _ => _ | Raised _ _ => _ end) => destruct o
      | |- preserves _ (let '(_, _) := ?p in _) => destruct p
      end ].

Lemma preserves_yield_if p : preserves P (yield_if p).
Proof. destruct p as [[[n c] sz]|]; unfold yield_if; solve_preserves. Qed.

Lemma preserves_self_uint env key : preserves P (self_uint env key).
Proof. unfold self_uint. solve_preserves. Qed.

Lemma preserves_self_bytes env key : preserves P (self_bytes env key).
Proof. unfold self_bytes. solve_preserves. Qed.

Lemma preserves_read_records k n c gen : preserves P (read_records k n c gen).
Proof. induction k; simpl; unfold yield_fieldset; solve_preserves. Qed.

Lemma preserves_with_keys key l : preserves P (with_keys key l).
Proof. induction l; simpl; solve_preserves. Qed.

Lemma preserves_sort_fields key l : preserves P (sort_fields key l).
Proof.
  unfold sort_fields. apply preserves_bind; [|intros ?; apply preserves_ret].
  apply preserves_with_keys.
Qed.

Lemma preserves_table_step env table : preserves P (TrueTypeFontFile.table_step env table).
Proof.
  unfold TrueTypeFontFile.table_step, Table.init, seekByte.
  solve_preserves; apply preserves_yield_if.
Qed.

Lemma preserves_emit_tables env tables : preserves P (TrueTypeFontFile.emit_tables env tables).
Proof.
  induction tables as [|t tables IH]; [apply preserves_ret|].
  cbn [TrueTypeFontFile.emit_tables].
  apply preserves_bind; [apply preserves_table_step|done].
Qed.

Lemma preserves_createFields env : preserves P (TrueTypeFontFile.createFields env).
Proof.
  unfold TrueTypeFontFile.createFields. unfold_constructors.
  solve_preserves;
    first [apply preserves_self_uint | apply preserves_read_records
          | apply preserves_with_keys | apply preserves_sort_fields
          | apply preserves_emit_tables | apply preserves_yield_if].
Qed.

Lemma preserves_names_step env last entry : preserves P (names_step env last entry).
Proof.
  unfold names_step, seekByte. unfold_constructors.
  solve_preserves; first [apply preserves_self_uint | apply preserves_yield_if].
Qed.

Lemma preserves_names_walk env entries :
  forall last, preserves P (names_walk env last entries).
Proof.
  induction entries as [|e entries IH]; intros last; [apply preserves_ret|].
  cbn [names_walk]. apply preserves_bind; [apply preserves_names_step|done].
Qed.

Lemma preserves_parseNames env : preserves P (parseNames env).
Proof.
  unfold parseNames. unfold_constructors.
  solve_preserves;
    first [apply preserves_self_uint | apply preserves_read_records
          | apply preserves_with_keys | apply preserves_sort_fields
          | apply preserves_names_walk].
Qed.

Lemma preserves_parseFontHeader env : preserves P (parseFontHeader env).
Proof.
  unfold parseFontHeader. unfold_constructors.
  do 6 (apply preserves_bind; [apply preserves_yield|intros _]).
  apply preserves_bind; [apply preserves_self_bytes|intros magic].
  destruct (negb _); [apply preserves_raise|].
  do 16 (apply preserves_bind; [apply preserves_yield|intros _]).
  apply preserves_bind; [apply preserves_self_uint|intros u].
  destruct (negb _); [apply preserves_raise|].
  do 20 (apply preserves_bind; [apply preserves_yield|intros _]).
  apply preserves_ret.
Qed.

Lemma preserves_Table_createFields env parser : preserves P (Table.createFields env parser).
Proof.
  unfold Table.createFields. destruct parser as [[]|].
  - apply preserves_parseFontHeader.
  - apply preserves_parseNames.
  - unfold_constructors. solve_preserves.
Qed.
End Preservation.

(** ** Inversion of [bind] *)

Lemma bind_Done_inv {A B} (m : Gen A) (k : A -> Gen B) st b st' :
  bind m k st = Done b st' ->
  exists a st1, m st = Done a st1 /\ k a st1 = Done b st'.
Proof. unfold bind. destruct (m st) as [a st1|]; [|done]. eauto. Qed.



Lemma raises_only_self_uint (E : Error -> Prop) env key st :
  E ReadStreamError -> is_Some (lookup_field key (fields st)) ->
  raises_only E (self_uint env key) st.
Proof.
  intros HE [f Hf] e st'. rewrite (self_uint_run _ _ _ _ Hf).
  destruct (field_uint env f); [done|]. by intros [= <- <-].
Qed.

Lemma read_records_total k nm c gen sub :
  gen new_fieldset = Done tt sub ->
  forall st, exists tables st',
    read_records k nm c gen st = Done tables st' /\
    current_size st' = current_size st + Z.of_nat k * current_size sub /\
    fields st `prefix_of` fields st' /\ log st' = log st.
Proof.
  intros Hgen. induction k as [|k IH]; intros st.
  - exists [], st. simpl. repeat split; [lia|done].
  - cbn [read_records]. unfold yield_fieldset. rewrite Hgen.
    set (f := mkField (unique_name nm (fields st)) (current_size st) (current_size sub) c).
    set (st1 := {| current_size := current_size st + current_size sub;
                   fields := fields st ++ [f]; log := log st |}).
    destruct (IH st1) as (tables & st' & Hrec & Hcur & Hpre & Hlog).
    exists (f :: tables), st'. split; [|split; [|split]].
    + rewrite (bind_yield nm c (current_size sub) _ st f st1 eq_refl).
      unfold bind at 1. by rewrite Hrec.
    + rewrite Hcur. simpl. lia.
    + etrans; [|exact Hpre]. simpl. by apply prefix_app_r.
    + by rewrite Hlog.
Qed.


Lemma seek_end_current_size target null st st' :
  (padding <- seekBit target null ;; yield_if padding) st = Done tt st' ->
  current_size st' = target.
Proof.
  unfold bind, seekBit.
  destruct (Z.ltb_spec (target - current_size st) 0); [done|].
  destruct (Z.ltb_spec 0 (target - current_size st)).
  - unfold yield_if, bind, yield, ret. intros [= <-]. simpl. lia.
  - unfold yield_if, ret. intros [= <-]. lia.
Qed.

(** ** The root parser as a whole *)

(** X1.  A run of the root parser's [createFields] that completes has
    laid the whole stream out: its fields follow each other without gap or
    overlap from bit 0 to the last bit of the stream.  A run cut short by an
    exception has laid out the stream, gapless, up to its cursor. *)
Theorem createFields_tiles_stream (s : InputStream) :
  let run := TrueTypeFontFile.createFields (root_env s) new_fieldset in
  tiled (final_state run) /\
  (forall st, run = Done tt st ->
     current_size st = stream_size s /\ contiguous 0 (fields st) (stream_size s)).
Proof.
  intros run.
  assert (Htiled : tiled (final_state run)).
  { by apply (preserves_createFields tiled tiled_after_yield). }
  split; [exact Htiled|]. intros st Hrun.
  assert (Hcur : current_size st = stream_size s).
  { unfold run in Hrun. rewrite createFields_split in Hrun.
    unfold directory_and_tables in Hrun.
    apply bind_Done_inv in Hrun as (? & ? & _ & Hrun).
    apply bind_Done_inv in Hrun as (? & ? & _ & Hrun).
    apply bind_Done_inv in Hrun as (? & ? & _ & Hrun).
    apply bind_Done_inv in Hrun as (? & ? & _ & Hrun).
    by apply seek_end_current_size in Hrun. }
  split; [exact Hcur|]. rewrite Hrun in Htiled. unfold tiled in Htiled. simpl in Htiled.
  by rewrite Hcur in Htiled.
Qed.

Lemma createFields_tiles_stream_witness :
  current_size font_tables_done = stream_size (stream_of font_tables) /\
  contiguous 0 (fields font_tables_done) (stream_size (stream_of font_tables)).
Proof.
  apply (proj2 (createFields_tiles_stream (stream_of font_tables))).
  vm_compute. reflexivity.
Defined.

(** X3.  [createFields] does not check the table count.  With a count of
    0 and a stream that holds the header, the parse completes: the six
    header fields, then one null padding field over the rest of the stream
    (none when the stream ends with the header). *)
Theorem createFields_empty_directory (s : InputStream) :
  uint16_at s 4 = Some 0 ->
  96 <= stream_size s ->
  TrueTypeFontFile.createFields (root_env s) new_fieldset
  = Done tt (produced header_produced
               (padding_to (stream_size s) true header_produced) (stream_size s)).
Proof.
  intros Hnb Hsize. rewrite createFields_split. unfold directory_and_tables.
  rewrite (bind_self_uint (root_env s) "nb_table" _ header_produced
             (mkField "nb_table" 32 16 FUInt16) eq_refl).
  change (field_uint (root_env s) (mkField "nb_table" 32 16 FUInt16)) with (uint16_at s 4).
  rewrite Hnb. change (Z.to_nat 0) with 0%nat. cbn [read_records].
  unfold bind at 1, ret at 1. unfold bind at 1, sort_fields, bind at 1.
  cbn [with_keys]. unfold ret at 1 2. cbn [sort_by_key foldr map TrueTypeFontFile.emit_tables].
  unfold bind at 1, ret at 1.
  change (self_size (root_env s)) with (stream_size s).
  unfold bind, seekBit.
  destruct (Z.ltb_spec (stream_size s - current_size header_produced) 0) as [H|_].
  { simpl in H. lia. }
  fold (after_seek (stream_size s) true header_produced).
  rewrite <- after_seek_produced by (simpl; lia).
  unfold after_seek. destruct (0 <? stream_size s - current_size header_produced);
    reflexivity.
Qed.

Lemma createFields_empty_directory_witness :
  TrueTypeFontFile.createFields
    (root_env (stream_of (font_header 1 0 0 ++ [x00; x00]))) new_fieldset
  = Done tt (produced header_produced
               (padding_to 112 true header_produced) 112).
Proof.
  apply (createFields_empty_directory (stream_of (font_header 1 0 0 ++ [x00; x00])));
    [reflexivity|].
  vm_compute. discriminate.
Defined.

Lemma table_placed_mono env tables tables' f :
  tables ⊆ tables' -> table_placed env tables f -> table_placed env tables' f.
Proof.
  intros Hsub (t & off & sz & Ht & H). exists t, off, sz. split; [by apply Hsub|done].
Qed.

Lemma table_step_placed env t st :
  exists new,
    fields (final_state (TrueTypeFontFile.table_step env t st)) = fields st ++ new /\
    Forall (fun f => is_table f = true -> table_placed env [t] f) new.
Proof.
  assert (Hpad : forall target,
            Forall (fun f => is_table f = true -> table_placed env [t] f)
              (padding_to target true st)).
  { intros target. unfold padding_to. destruct (current_size st <? target); [|done].
    constructor; [|done]. done. }
  rewrite table_step_unfold.
  destruct (TableHeader.value env t "offset") as [off|] eqn:Hoff.
  2:{ exists []. by rewrite app_nil_r. }
  destruct (Z.ltb_spec (off * 8 - current_size st) 0) as [|Hseek].
  { exists []. by rewrite app_nil_r. }
  cbv zeta.
  destruct (TableHeader.value env t "size") as [sz|] eqn:Hsz.
  2:{ exists (padding_to (off * 8) true st). simpl. by rewrite after_seek_fields. }
  destruct (Z.eqb_spec sz 0) as [->|Hne]; simpl negb; cbv iota.
  { exists (padding_to (off * 8) true st). simpl. by rewrite after_seek_fields. }
  destruct (TableHeader.tag env t) as [tag|].
  2:{ exists (padding_to (off * 8) true st). simpl. by rewrite after_seek_fields. }
  eexists. simpl. rewrite after_seek_fields, <- app_assoc. split; [reflexivity|].
  apply Forall_app. split; [apply Hpad|]. constructor; [|done].
  intros _. exists t, off, sz. simpl.
  rewrite after_seek_current_size by lia.
  repeat split; try done. apply list_elem_of_singleton. done.
Qed.

Lemma TAG_INFO_lookup tag :
  Table.TAG_INFO !! tag
  = if String.eqb tag "head" then Some ("header", "Font header", ParseFontHeader)
    else if String.eqb tag "name" then Some ("names", "Names", ParseNames)
    else None.
Proof.
  unfold Table.TAG_INFO.
  destruct (String.eqb_spec tag "head") as [->|Hhead]; [reflexivity|].
  rewrite lookup_insert_ne by done.
  destruct (String.eqb_spec tag "name") as [->|Hname]; [reflexivity|].
  by rewrite lookup_singleton_ne.
Qed.

Lemma Table_init_run env nm table st tag :
  TableHeader.tag env table = Some tag ->
  Table.init env nm table st
  = Done match Table.TAG_INFO !! tag with
         | Some (n, _, p) => (n, FTable (name table) (Some p))
         | None => (nm, FTable (name table) None)
         end st.
Proof.
  intros Htag. unfold Table.init, bind. rewrite Htag. simpl.
  by destruct (Table.TAG_INFO !! tag) as [[[n d] p]|].
Qed.

(** X5.  Only the tags "head" and "name" select a sub-parser, and they
    rename the table to "header" and "names".  A table with any other tag
    keeps the array name it was built with, and its content is a single
    raw-bytes field named "content" over the whole bytes of the table; its
    production raises nothing. *)
Theorem Table_dispatch (env : FieldSetEnv) (nm : string) (table : Field)
    (st : FieldSetState) (tag : string) :
  TableHeader.tag env table = Some tag ->
  (tag = "head" ->
     Table.init env nm table st
     = Done ("header", FTable (name table) (Some ParseFontHeader)) st) /\
  (tag = "name" ->
     Table.init env nm table st
     = Done ("names", FTable (name table) (Some ParseNames)) st) /\
  (tag <> "head" -> tag <> "name" ->
     Table.init env nm table st = Done (nm, FTable (name table) None) st /\
     table_name_parser tag = ("table[]", None) /\
     forall tenv, Table.createFields tenv (table_name_parser tag).2 new_fieldset
                  = Done tt (raw_content tenv)).
Proof.
  intros Htag. rewrite (Table_init_run _ _ _ _ _ Htag).
  unfold table_name_parser. rewrite TAG_INFO_lookup.
  split; [|split].
  - by intros ->.
  - by intros ->.
  - intros Hhead Hname.
    rewrite (proj2 (String.eqb_neq tag "head") Hhead).
    rewrite (proj2 (String.eqb_neq tag "name") Hname).
    split; [done|]. split; [done|]. intros tenv. reflexivity.
Qed.

Lemma Table_dispatch_witness :
  Table.init font_tables_env "table[]" table_hdr_1 font_tables_indexed
  = Done ("table[]", FTable "table_hdr[1]" None) font_tables_indexed.
Proof.
  refine (proj1 (proj2 (proj2
    (Table_dispatch font_tables_env "table[]" table_hdr_1 font_tables_indexed "data"
       eq_refl)) _ _)); discriminate.
Defined.

(** ** The name table as a whole *)

(** [parseNames] on a fresh table, up to the index. *)
Lemma parseNames_cases env :
  parseNames env new_fieldset =
  match format_of env with
  | None => Raised ReadStreamError names_at_format
  | Some format =>
    if negb (format =? 0)
    then Raised (ParserError (invalid_format_msg format)) names_at_format
    else
    match count_of env with
    | None => Raised ReadStreamError names_at_offset
    | Some count => names_index_and_values env count names_at_offset
    end
  end.
Proof.
  unfold parseNames. unfold_constructors.
  run_yields. name_state names_at_format.
  rewrite (bind_self_uint env "format" _ names_at_format
             (mkField "format" 0 16 FUInt16) eq_refl).
  change (field_uint env (mkField "format" 0 16 FUInt16)) with (format_of env).
  destruct (format_of env) as [format|]; [|reflexivity].
  destruct (negb (format =? 0)); [reflexivity|].
  run_yields. name_state names_at_offset.
  rewrite (bind_self_uint env "count" _ names_at_offset
             (mkField "count" 16 16 FUInt16) eq_refl).
  change (field_uint env (mkField "count" 16 16 FUInt16)) with (count_of env).
  destruct (count_of env) as [count|]; reflexivity.
Qed.



Lemma sort_fields_Done key l st l' st' :
  sort_fields key l st = Done l' st' ->
  st' = st /\ exists keyed, with_keys key l st = Done keyed st /\
                           l' = map snd (sort_by_key keyed).
Proof.
  unfold sort_fields. intros (keyed & st1 & Hk & Hret)%bind_Done_inv.
  injection Hret as <- <-.
  pose proof (with_keys_Done _ _ _ _ _ Hk) as (-> & _). eauto.
Qed.

Lemma NameHeader_createFields_run :
  NameHeader.createFields new_fieldset = Done tt name_header_layout.
Proof. vm_compute. reflexivity. Qed.





Arguments count_strings : simpl never.

Lemma count_strings_app l1 l2 :
  count_strings (l1 ++ l2) = (count_strings l1 + count_strings l2)%nat.
Proof. unfold count_strings. by rewrite List.filter_app, length_app. Qed.

Lemma count_strings_after_seek target null st :
  count_strings (fields (after_seek target null st)) = count_strings (fields st).
Proof.
  rewrite after_seek_fields, count_strings_app. unfold padding_to.
  destruct (current_size st <? target); unfold count_strings at 2; simpl; lia.
Qed.

Lemma names_step_accounts env last e st last' st' :
  names_step env last e st = Done last' st' ->
  exists eo el,
    entry_pair env e = Some (eo, el) /\
    (length (log st') + count_strings (fields st')
     <= length (log st) + count_strings (fields st) + 1)%nat /\
    (el <> 0 ->
     (length (log st') + count_strings (fields st')
      = length (log st) + count_strings (fields st) + 1)%nat).
Proof.
  rewrite names_step_unfold. unfold entry_pair.
  destruct (NameHeader.value env e "offset") as [eo|]; [|done].
  destruct (NameHeader.value env e "length") as [el|]; [|done].
  simpl. intros H. exists eo, el. split; [done|]. revert H.
  destruct (match last with Some l => pair_eqb l (eo, el) | None => false end).
  { intros [= <- <-]. simpl. rewrite length_app. simpl. lia. }
  destruct (lookup_field "offset" (fields st)) as [f|]; [|done].
  destruct (field_uint env f) as [base|]; [|done].
  destruct (eo + base <? current_size st / 8).
  { intros [= <- <-]. simpl. rewrite length_app. simpl. lia. }
  destruct ((eo + base) * 8 - current_size st <? 0); [done|]. cbv zeta.
  destruct (Z.eqb_spec el 0) as [->|Hne]; simpl negb; cbv iota.
  - intros [= <- <-]. rewrite count_strings_after_seek, after_seek_log. lia.
  - destruct (NameHeader.getCharset env e) as [cs|]; [|done].
    intros [= <- <-]. simpl. rewrite count_strings_app, count_strings_after_seek,
      after_seek_log.
    match goal with |- context [count_strings [?f]] =>
      change (count_strings [f]) with 1%nat end.
    lia.
Qed.

(** X8.  In a walk over the index records that completes, every record
    accounts for at most one thing: either one anomaly is logged for it
    (it is skipped) or one string field is produced for it, never both; a
    record of length zero that is not skipped gives neither.  So anomalies
    plus string fields never exceed the number of records, and equal it
    when no record has length zero. *)
Theorem names_walk_accounts (env : FieldSetEnv) (entries : list Field) :
  forall last st st',
    names_walk env last entries st = Done tt st' ->
    (length (log st') + count_strings (fields st')
     <= length (log st) + count_strings (fields st) + length entries)%nat /\
    (Forall (fun e => forall eo, entry_pair env e <> Some (eo, 0)) entries ->
     (length (log st') + count_strings (fields st')
      = length (log st) + count_strings (fields st) + length entries)%nat).
Proof.
  induction entries as [|e entries IH]; intros last st st'.
  - simpl. intros [= <-]. lia.
  - rewrite names_walk_cons.
    destruct (names_step env last e st) as [last1 st1|] eqn:Hstep; [|done].
    intros Hrest. apply names_step_accounts in Hstep as (eo & el & Hp & Hle & Heq).
    apply IH in Hrest as [Hle' Heq']. simpl. split; [lia|].
    intros HF. inversion HF as [|? ? He HF']; subst.
    specialize (Heq' HF').
    assert (el <> 0) by (intros ->; by apply (He eo)).
    specialize (Heq H). lia.
Qed.

Lemma names_walk_accounts_witness :
  (length (log names_done) + count_strings (fields names_done)
   <= length (log names_first_walked) + count_strings (fields names_first_walked)
      + length [header_1; header_2])%nat /\
  (Forall (fun e => forall eo, entry_pair names_env e <> Some (eo, 0)) [header_1; header_2] ->
   (length (log names_done) + count_strings (fields names_done)
    = length (log names_first_walked) + count_strings (fields names_first_walked)
      + length [header_1; header_2])%nat).
Proof.
  apply (names_walk_accounts names_env [header_1; header_2] (Some (0, 4))
           names_first_walked names_done).
  vm_compute. reflexivity.
Defined.

Lemma names_step_placed env base last e st :
  base_offset env st = Some base ->
  exists new,
    fields (final_state (names_step env last e st)) = fields st ++ new /\
    Forall (fun f => is_string f = true -> string_placed env base [e] f) new.
Proof.
  intros Hbase.
  assert (Hpad : forall target,
            Forall (fun f => is_string f = true -> string_placed env base [e] f)
              (padding_to target false st)).
  { intros target. unfold padding_to. destruct (current_size st <? target); [|done].
    constructor; [|done]. done. }
  rewrite names_step_unfold. unfold base_offset in Hbase.
  destruct (NameHeader.value env e "offset") as [eo|] eqn:Ho.
  2:{ exists []. by rewrite app_nil_r. }
  destruct (NameHeader.value env e "length") as [el|] eqn:Hl.
  2:{ exists []. by rewrite app_nil_r. }
  destruct (match last with Some l => pair_eqb l (eo, el) | None => false end).
  { exists []. simpl. by rewrite app_nil_r. }
  destruct (lookup_field "offset" (fields st)) as [f|]; [|done]. simpl in Hbase.
  rewrite Hbase.
  destruct (eo + base <? current_size st / 8).
  { exists []. simpl. by rewrite app_nil_r. }
  destruct (Z.ltb_spec ((eo + base) * 8 - current_size st) 0) as [|Hseek].
  { exists []. by rewrite app_nil_r. }
  cbv zeta.
  destruct (Z.eqb_spec el 0) as [->|Hne]; simpl negb; cbv iota.
  { exists (padding_to ((eo + base) * 8) false st). simpl.
    by rewrite after_seek_fields. }
  destruct (NameHeader.getCharset env e) as [cs|] eqn:Hcs.
  2:{ exists (padding_to ((eo + base) * 8) false st). simpl.
      by rewrite after_seek_fields. }
  eexists. simpl. rewrite after_seek_fields, <- app_assoc. split; [reflexivity|].
  apply Forall_app. split; [apply Hpad|]. constructor; [|done].
  intros _. exists e, eo, el, cs. simpl.
  rewrite after_seek_current_size by lia.
  split; [apply list_elem_of_here|].
  split; [by apply entry_pair_Some|]. done.
Qed.

Lemma string_placed_mono env base entries entries' f :
  entries ⊆ entries' -> string_placed env base entries f -> string_placed env base entries' f.
Proof.
  intros Hsub (e & eo & el & cs & He & H). exists e, eo, el, cs.
  split; [by apply Hsub|done].
Qed.

(** X9.  Every string field the walk produces is the value of one of the
    index records: it starts at the record's offset within the string
    block, is as long as the record says (not zero), and carries the
    character set [getCharset] gives for the record. *)
Theorem names_walk_placed (env : FieldSetEnv) (base : Z) (entries : list Field) :
  forall last st,
    base_offset env st = Some base ->
    exists new,
      fields (final_state (names_walk env last entries st)) = fields st ++ new /\
      Forall (fun f => is_string f = true -> string_placed env base entries f) new.
Proof.
  induction entries as [|e entries IH]; intros last st Hbase.
  - exists []. simpl. by rewrite app_nil_r.
  - cbn [names_walk]. rewrite final_state_bind.
    destruct (names_step_placed env base last e st Hbase) as (new1 & Hf1 & HF1).
    destruct (names_step env last e st) as [last1 st1|err st1] eqn:Hstep; simpl in Hf1.
    + apply names_step_forward in Hstep as (_ & _ & Hpre).
      destruct (IH last1 st1 (base_offset_prefix _ _ _ _ Hpre Hbase))
        as (new2 & Hf2 & HF2).
      exists (new1 ++ new2). rewrite Hf2, Hf1, <- app_assoc. split; [done|].
      apply Forall_app. split.
      * eapply Forall_impl; [exact HF1|]. intros f Hf Hs.
        eapply string_placed_mono; [|exact (Hf Hs)].
        intros x Hx%list_elem_of_singleton. subst x. apply list_elem_of_here.
      * eapply Forall_impl; [exact HF2|]. intros f Hf Hs.
        eapply string_placed_mono; [|exact (Hf Hs)].
        intros x Hx. by apply list_elem_of_further.
    + exists new1. split; [done|].
      eapply Forall_impl; [exact HF1|]. intros f Hf Hs.
      eapply string_placed_mono; [|exact (Hf Hs)].
      intros x Hx%list_elem_of_singleton. subst x. apply list_elem_of_here.
Qed.

Lemma names_walk_placed_witness :
  exists new,
    fields (final_state (names_walk names_env None [header_0; header_1; header_2]
                           names_indexed))
    = fields names_indexed ++ new /\
    Forall (fun f => is_string f = true ->
                     string_placed names_env 42 [header_0; header_1; header_2] f) new.
Proof.
  apply (names_walk_placed names_env 42 [header_0; header_1; header_2] None names_indexed).
  reflexivity.
Defined.

(** ** Tables *)



(** ** [validate] and the header *)

Lemma uint16_at_header s pos :
  pos = 0 \/ pos = 2 \/ pos = 4 ->
  uint16_at s pos = uint16_at (header_words s) pos.
Proof.
  intros Hpos. unfold uint16_at, readBytes, header_words, stream_size, stream_of.
  cbn [stream_data]. rewrite length_take.
  assert (Hmod : pos * 8 mod 8 = 0) by (apply Z.mod_mul; lia).
  assert (Hdiv : pos * 8 / 8 = pos) by (apply Z.div_mul; lia).
  rewrite Hmod, Hdiv.
  replace (0 <=? pos * 8) with true by (symmetry; apply Z.leb_le; lia).
  change (0 =? 0) with true. change (0 <=? 2) with true. cbn [andb].
  destruct (Z.leb_spec (pos * 8 + 8 * 2) (8 * Z.of_nat (length (stream_data s)))),
           (Z.leb_spec (pos * 8 + 8 * 2) (8 * Z.of_nat (6 `min` length (stream_data s))));
    try lia; [|reflexivity].
  do 2 f_equal.
  rewrite skipn_firstn_comm, take_take. f_equal.
  destruct Hpos as [Hp|[Hp|Hp]]; subst pos; simpl; lia.
Qed.

(** X12.  [validate()] looks at the first six bytes of the stream only:
    two streams that start with the same six bytes (or the same bytes, when
    shorter) get the same verdict, whatever follows. *)
Theorem validate_reads_header_only (s1 s2 : InputStream) :
  take 6 (stream_data s1) = take 6 (stream_data s2) ->
  parser_validate s1 = parser_validate s2.
Proof.
  intros Heq. rewrite !parser_validate_unfold.
  rewrite (uint16_at_header s1 0), (uint16_at_header s1 2), (uint16_at_header s1 4),
          (uint16_at_header s2 0), (uint16_at_header s2 2), (uint16_at_header s2 4)
    by tauto.
  unfold header_words. by rewrite Heq.
Qed.

Lemma validate_reads_header_only_witness :
  parser_validate (stream_of font_tables) = parser_validate (stream_of font_200_50_120).
Proof.
  apply (validate_reads_header_only (stream_of font_tables) (stream_of font_200_50_120)).
  reflexivity.
Defined.

(** ** Fragment groups: sharing, errors, size *)

(** X13.  Building a fragment touches its own group only: every other
    group object is left as it was, and so is the stream it gives.  A
    fragment built without a group gets a group that did not exist
    before. *)
Theorem CustomFragment_init_frame (env : FieldSetEnv) (nm : string) (sz : Z)
    (p : string) (g : option loc) (h : Heap) :
  let '(f, h') := CustomFragment_init env nm sz p g h in
  (forall l, l <> group f ->
     h' !! l = h !! l /\ createInputStream l h' = createInputStream l h) /\
  (g = None -> h !! group f = None) /\
  (forall l, g = Some l -> group f = l).
Proof.
  unfold CustomFragment_init.
  destruct g as [l0|]; simpl.
  - split; [|split; [done|by intros l [= ->]]].
    intros l Hl.
    assert (Hlook : FragmentGroup_add l0
              {| frag_name := nm; frag_env := env; field_size := sz; group := l0 |} h !! l
            = h !! l)
      by (unfold FragmentGroup_add; by rewrite lookup_alter_ne).
    split; [exact Hlook|]. unfold createInputStream. by rewrite Hlook.
  - split; [|split; [|done]].
    + intros l Hl.
      assert (Hlook : FragmentGroup_add (fresh (dom h))
                {| frag_name := nm; frag_env := env; field_size := sz;
                   group := fresh (dom h) |}
                (<[fresh (dom h) := {| items := []; parser := p; args := ∅ |}]> h) !! l
              = h !! l)
        by (unfold FragmentGroup_add; by rewrite lookup_alter_ne, lookup_insert_ne).
      split; [exact Hlook|]. unfold createInputStream. by rewrite Hlook.
    + intros _. apply not_elem_of_dom, is_fresh.
Qed.

Lemma CustomFragment_init_frame_witness :
  let h : Heap := {[ 0%nat := {| items := [one_fragment]; parser := "First"; args := ∅ |} ]} in
  let '(f, h') := CustomFragment_init (placed_at 11) "fragment[]" 16 "Second" None h in
  h' !! 0%nat = h !! 0%nat /\ createInputStream 0%nat h' = createInputStream 0%nat h.
Proof.
  intros h.
  pose proof (CustomFragment_init_frame (placed_at 11) "fragment[]" 16 "Second" None h)
    as H.
  destruct (CustomFragment_init (placed_at 11) "fragment[]" 16 "Second" None h)
    as [f h'] eqn:E.
  apply (proj1 H 0%nat).
  assert (Hg : group f = 1%nat).
  { unfold CustomFragment_init, FragmentGroup_init in E. injection E as <- _.
    vm_compute. reflexivity. }
  rewrite Hg. discriminate.
Defined.

(** X14.  The sub-parser of a group is the one given to the fragment that
    created it: a fragment built with an existing group adds itself to the
    group and its own [parser] argument is not used; the stream of the group
    keeps the tags of the group. *)
Theorem CustomFragment_init_keeps_parser (env : FieldSetEnv) (nm : string) (sz : Z)
    (p : string) (l : loc) (h : Heap) (g : FragmentGroup) (ds : list (list byte)) :
  h !! l = Some g ->
  let '(f, h') := CustomFragment_init env nm sz p (Some l) h in
  h' !! l = Some {| items := items g ++ [f]; parser := parser g; args := args g |} /\
  (mapM rawdata_value (items g ++ [f]) = Some ds ->
   createInputStream l h' = Some (group_stream (concat ds) (parser g) (args g)) /\
   CustomFragment_createInputStream f h'
   = Some (group_stream (concat ds) (parser g) (args g))).
Proof.
  intros Hl.
  pose proof (CustomFragment_init_shared env nm sz p l h g Hl) as Hinit.
  destruct (CustomFragment_init env nm sz p (Some l) h) as [f h'].
  destruct Hinit as (Hg & _ & _ & Hl'). split; [exact Hl'|].
  intros Hds. unfold CustomFragment_createInputStream. rewrite Hg.
  split; by rewrite (createInputStream_items l h' _ ds Hl' Hds).
Qed.

Lemma CustomFragment_init_keeps_parser_witness :
  let '(f, h') := CustomFragment_init (placed_at 11) "fragment[]" 16 "Second" (Some 0%nat)
                    {[ 0%nat := {| items := []; parser := "First"; args := ∅ |} ]} in
  h' !! 0%nat = Some {| items := [] ++ [f]; parser := "First"; args := ∅ |}.
Proof.
  exact (proj1 (CustomFragment_init_keeps_parser (placed_at 11) "fragment[]" 16 "Second"
                  0%nat {[ 0%nat := {| items := []; parser := "First"; args := ∅ |} ]}
                  {| items := []; parser := "First"; args := ∅ |} []
                  (lookup_singleton_eq _ _))).
Defined.

Lemma readBytes_length s a n bs :
  readBytes s a n = Some bs -> length bs = Z.to_nat n.
Proof.
  unfold readBytes, stream_size.
  destruct (Z.leb_spec 0 a); [|done].
  destruct (Z.eqb_spec (a mod 8) 0); [|done].
  destruct (Z.leb_spec 0 n); [|done].
  destruct (Z.leb_spec (a + 8 * n) (8 * Z.of_nat (length (stream_data s)))); [|done].
  simpl. intros [= <-]. rewrite length_take, length_drop.
  pose proof (Z.div_mod a 8). lia.
Qed.

Lemma rawdata_value_length item d :
  rawdata_value item = Some d -> length d = fragment_bytes item.
Proof.
  rewrite rawdata_value_read. intros H%readBytes_length. rewrite H.
  unfold fragment_bytes. by rewrite Z.div_mul.
Qed.

(** X16.  The stream of a group holds, for each fragment, the whole bytes
    of the fragment ([field_size // 8]; the bits beyond are left out): its
    length is the sum of these byte counts. *)
Theorem createInputStream_size (l : loc) (h : Heap) (g : FragmentGroup) (s : InputStream) :
  h !! l = Some g ->
  createInputStream l h = Some s ->
  length (stream_data s) = sum_list (fragment_bytes <$> items g).
Proof.
  intros Hl. unfold createInputStream. rewrite Hl. simpl.
  destruct (mapM rawdata_value (items g)) as [ds|] eqn:Hds; [|done].
  simpl. intros [= <-]. simpl.
  apply mapM_Some in Hds. induction Hds as [|item d items ds Hd _ IH]; [done|].
  simpl. rewrite length_app, IH. f_equal. by apply rawdata_value_length.
Qed.

Lemma createInputStream_size_witness :
  length (list_byte_of_string "AB") = sum_list (fragment_bytes <$> [one_fragment]).
Proof.
  apply (createInputStream_size 0%nat
           {[ 0%nat := {| items := [one_fragment]; parser := "P"; args := ∅ |} ]}
           {| items := [one_fragment]; parser := "P"; args := ∅ |}
           (group_stream (list_byte_of_string "AB") "P" ∅)).
  - apply lookup_singleton_eq.
  - vm_compute. reflexivity.
Defined.

(** ** Index records *)

(** [getCharset] gives UTF-16-BE exactly for platform 3 with
    encoding 1 and ASCII otherwise; the encoding is read only for platform
    3, so an unreadable encoding does not matter for the other platforms. *)
Theorem getCharset_spec (env : FieldSetEnv) (entry : Field) :
  (NameHeader.getCharset env entry = Some UTF_16_BE <->
   NameHeader.value env entry "platformID" = Some 3 /\
   NameHeader.value env entry "encodingID" = Some 1) /\
  (NameHeader.getCharset env entry = None <->
   NameHeader.value env entry "platformID" = None \/
   (NameHeader.value env entry "platformID" = Some 3 /\
    NameHeader.value env entry "encodingID" = None)) /\
  (forall p, NameHeader.value env entry "platformID" = Some p -> p <> 3 ->
     NameHeader.getCharset env entry = Some ASCII).
Proof.
  unfold NameHeader.getCharset.
  destruct (NameHeader.value env entry "platformID") as [p|]; simpl.
  2:{ split; [split; [done|by intros [? _]]|]. split; [|done]. split; [by left|done]. }
  destruct (Z.eqb_spec p 3) as [->|Hp].
  - destruct (NameHeader.value env entry "encodingID") as [e|]; simpl.
    + destruct (Z.eqb_spec e 1) as [->|He].
      * split; [done|]. split; [|by intros ? [= <-]].
        split; [done|]. intros [[=]|[_ [=]]].
      * split; [split; [done|by intros [_ [= ->]]]|]. split; [|by intros ? [= <-]].
        split; [done|]. intros [[=]|[_ [=]]].
    + split; [split; [done|by intros [_ [=]]]|]. split; [|by intros ? [= <-]].
      split; [by right|done].
  - split; [split; [done|by intros [[= ->] _]]|]. split; [|done].
    split; [done|]. intros [[=]|[[= ->] _]]. done.
Qed.

Lemma getCharset_spec_witness :
  NameHeader.getCharset names_env header_0 = Some ASCII.
Proof.
  apply (proj2 (proj2 (getCharset_spec names_env header_0)) 1); [reflexivity|discriminate].
Defined.

Lemma TableHeader_createFields_run :
  TableHeader.createFields new_fieldset = Done tt table_header_layout.
Proof. vm_compute. reflexivity. Qed.

Lemma read_records_placed k nm c gen sub :
  gen new_fieldset = Done tt sub ->
  forall st tables st',
    read_records k nm c gen st = Done tables st' ->
    length tables = k /\
    forall (i : nat) t, tables !! i = Some t ->
      address t = current_size st + Z.of_nat i * current_size sub /\
      size t = current_size sub /\ class t = c.
Proof.
  intros Hgen. induction k as [|k IH]; intros st tables st'.
  - simpl. intros [= <- <-]. split; [done|]. intros i t. by rewrite lookup_nil.
  - cbn [read_records]. unfold yield_fieldset. rewrite Hgen.
    set (f := mkField (unique_name nm (fields st)) (current_size st) (current_size sub) c).
    set (st1 := {| current_size := current_size st + current_size sub;
                   fields := fields st ++ [f]; log := log st |}).
    rewrite (bind_yield nm c (current_size sub) _ st f st1 eq_refl).
    intros (rs & st2 & Hrec & Hret)%bind_Done_inv. injection Hret as <- <-.
    apply IH in Hrec as [Hlen Hrs]. split; [simpl; by rewrite Hlen|].
    intros [|i] t; simpl.
    + intros [= <-]. simpl. split; [lia|done].
    + intros Hi. destruct (Hrs i t Hi) as (Ha & Hs & Hc). simpl in Ha.
      split; [lia|done].
Qed.

(** ** Well-formed input *)



Lemma nonempty_entries_cons env e rest :
  nonempty_entries env (e :: rest)
  = nonempty_entries env [e] ++ nonempty_entries env rest.
Proof.
  unfold nonempty_entries. simpl.
  destruct (entry_pair env e) as [[eo el]|]; [|done]. by destruct (negb (el =? 0)).
Qed.


(** ** Tables inside the stream *)





Lemma uint16_at_nonneg s pos v : uint16_at s pos = Some v -> 0 <= v.
Proof.
  unfold uint16_at. destruct (readBytes s (pos * 8) 2); simpl; [|done].
  intros [= <-]. apply uint_be_nonneg.
Qed.

(** The state once the directory of [nb] records is read. *)
Lemma directory_read nb tables st1 :
  0 <= nb ->
  read_records (Z.to_nat nb) "table_hdr[]" FTableHeader TableHeader.createFields
    header_produced = Done tables st1 ->
  current_size st1 = (12 + 16 * nb) * 8 /\ fields st1 = header_fields ++ tables.
Proof.
  intros Hnb Hrec.
  destruct (read_records_total (Z.to_nat nb) "table_hdr[]" FTableHeader
              TableHeader.createFields _ TableHeader_createFields_run header_produced)
    as (tables' & st1' & Hrec' & Hcur & _ & _).
  rewrite Hrec in Hrec'. injection Hrec' as <- <-.
  destruct (read_records_fields (Z.to_nat nb) "table_hdr[]" FTableHeader
              TableHeader.createFields _ TableHeader_createFields_run header_produced)
    as (tables' & st1' & Hrec' & Hf & _ & _).
  rewrite Hrec in Hrec'. injection Hrec' as <- <-.
  split; [|exact Hf]. rewrite Hcur, Z2Nat.id by lia. simpl. lia.
Qed.

(** [createFields] of the root parser, once the directory is read and
    sorted. *)
Lemma createFields_after_sort s nb tables sorted st1 :
  uint16_at s 4 = Some nb ->
  read_records (Z.to_nat nb) "table_hdr[]" FTableHeader TableHeader.createFields
    header_produced = Done tables st1 ->
  sort_fields (offset_key (root_env s)) tables st1 = Done sorted st1 ->
  TrueTypeFontFile.createFields (root_env s) new_fieldset
  = (TrueTypeFontFile.emit_tables (root_env s) sorted ;;
     padding <- seekBit (stream_size s) true ;;
     yield_if padding) st1.
Proof.
  intros Hnb Hrec Hsort.
  rewrite createFields_split. unfold directory_and_tables.
  rewrite (bind_self_uint (root_env s) "nb_table" _ header_produced
             (mkField "nb_table" 32 16 FUInt16) eq_refl).
  change (field_uint (root_env s) (mkField "nb_table" 32 16 FUInt16))
    with (uint16_at s 4).
  rewrite Hnb. unfold bind at 1. rewrite Hrec.
  unfold bind at 1. unfold offset_key in Hsort. rewrite Hsort. reflexivity.
Qed.




Lemma emit_tables_placed_all env tables :
  forall st,
  exists new,
    fields (final_state (TrueTypeFontFile.emit_tables env tables st)) = fields st ++ new /\
    Forall (fun f => is_table f = true -> table_placed env tables f) new.
Proof.
  induction tables as [|t tables IH]; intros st.
  - exists []. simpl. by rewrite app_nil_r.
  - cbn [TrueTypeFontFile.emit_tables]. rewrite final_state_bind.
    destruct (table_step_placed env t st) as (new1 & Hf1 & HF1).
    destruct (TrueTypeFontFile.table_step env t st) as [[] st1|e st1]; simpl in Hf1.
    + destruct (IH st1) as (new2 & Hf2 & HF2).
      exists (new1 ++ new2). rewrite Hf2, Hf1, <- app_assoc. split; [done|].
      apply Forall_app. split.
      * eapply Forall_impl; [exact HF1|]. intros f Hf Htab.
        eapply table_placed_mono; [|exact (Hf Htab)].
        intros x Hx%list_elem_of_singleton. subst x. apply list_elem_of_here.
      * eapply Forall_impl; [exact HF2|]. intros f Hf Htab.
        eapply table_placed_mono; [|exact (Hf Htab)].
        intros x Hx. by apply list_elem_of_further.
    + exists new1. split; [done|].
      eapply Forall_impl; [exact HF1|]. intros f Hf Htab.
      eapply table_placed_mono; [|exact (Hf Htab)].
      intros x Hx%list_elem_of_singleton. subst x. apply list_elem_of_here.
Qed.

(** X4.  When the tables the records declare lie inside the field set,
    every table field the loop over the directory produces, in a run that
    completes or in one cut short by a seek error, stands for one of the
    records it is given: it sits at that record's declared offset, has its
    declared size (not zero) in bytes, names it, and lies inside the field
    set. *)
Theorem emit_tables_placed (env : FieldSetEnv) (tables : list Field) (st : FieldSetState) :
  Forall (in_stream env) tables ->
  exists new,
    fields (final_state (TrueTypeFontFile.emit_tables env tables st)) = fields st ++ new /\
    Forall (fun f => is_table f = true ->
                     table_placed env tables f /\ address f + size f <= self_size env) new.
Proof.
  intros Hin. destruct (emit_tables_placed_all env tables st) as (new & Hf & HF).
  exists new. split; [exact Hf|].
  eapply Forall_impl; [exact HF|]. intros f Hpl Htab.
  specialize (Hpl Htab). split; [exact Hpl|].
  destruct Hpl as (t & off & sz & Ht & _ & Hoff & Hsz & _ & Ha & Hs).
  rewrite Forall_forall in Hin.
  destruct (Hin t Ht) as (off' & sz' & Hoff' & Hsz' & _ & Hend).
  rewrite Hoff in Hoff'. rewrite Hsz in Hsz'.
  injection Hoff' as <-. injection Hsz' as <-. lia.
Qed.

Lemma emit_tables_placed_witness :
  exists new,
    fields (final_state (TrueTypeFontFile.emit_tables (root_env (stream_of font_overlap))
                           [table_hdr_0; table_hdr_1; table_hdr_2] font_tables_indexed))
    = fields font_tables_indexed ++ new /\
    Forall (fun f => is_table f = true ->
                     table_placed (root_env (stream_of font_overlap))
                       [table_hdr_0; table_hdr_1; table_hdr_2] f
                     /\ address f + size f <= self_size (root_env (stream_of font_overlap)))
      new.
Proof.
  apply (emit_tables_placed (root_env (stream_of font_overlap))
           [table_hdr_0; table_hdr_1; table_hdr_2] font_tables_indexed).
  repeat constructor.
  - exists 60, 8. split; [reflexivity|]. split; [reflexivity|].
    split; [by eexists|]. vm_compute. discriminate.
  - exists 64, 4. split; [reflexivity|]. split; [reflexivity|].
    split; [by eexists|]. vm_compute. discriminate.
  - exists 72, 4. split; [reflexivity|]. split; [reflexivity|].
    split; [by eexists|]. vm_compute. discriminate.
Defined.

Lemma with_keys_total key l st :
  Forall (fun f => is_Some (key f)) l ->
  exists keyed, with_keys key l st = Done keyed st.
Proof.
  induction 1 as [|f l [k Hk] _ [keyed IH]]; [by exists []|].
  exists ((k, f) :: keyed). cbn [with_keys]. rewrite Hk.
  unfold bind at 1. simpl decoded. unfold ret at 1. unfold bind at 1.
  by rewrite IH.
Qed.

(** The sorted list holds the same records. *)
Lemma sort_fields_perm key l st l' st' :
  sort_fields key l st = Done l' st' -> st' = st /\ l' ≡ₚ l.
Proof.
  intros H. destruct (sort_fields_Done _ _ _ _ _ H) as (-> & keyed & Hk & ->).
  split; [done|]. destruct (with_keys_Done _ _ _ _ _ Hk) as (_ & <- & _).
  apply fmap_Permutation, sort_by_key_perm.
Qed.

(** The loop over records whose tables lie inside the field set: the
    only exception is the seek error, raised at a record whose table starts
    before the cursor. *)
Lemma emit_tables_seek_only env tables :
  Forall (in_stream env) tables ->
  forall st,
    current_size st <= self_size env ->
    match TrueTypeFontFile.emit_tables env tables st with
    | Done _ st' => current_size st' <= self_size env
    | Raised e st' =>
        e = ParserError "Seek error, unable to go back!" /\
        exists t off, t ∈ tables /\ TableHeader.value env t "offset" = Some off /\
                      off * 8 < current_size st'
    end.
Proof.
  induction 1 as [|t tables (off & sz & Hoff & Hsz & [tag Htag] & Hend) _ IH];
    intros st Hcur; [done|].
  cbn [TrueTypeFontFile.emit_tables]. unfold bind.
  rewrite table_step_unfold, Hoff, Hsz, Htag.
  pose proof (child_uint_nonneg _ _ _ _ _ Hsz) as Hsz0.
  destruct (Z.ltb_spec (off * 8 - current_size st) 0) as [Hlt|Hge].
  { split; [done|]. exists t, off. split; [apply list_elem_of_here|]. split; [done|lia]. }
  cbv zeta.
  assert (Hnext : forall st1, current_size st1 <= self_size env ->
            match TrueTypeFontFile.emit_tables env tables st1 with
            | Done _ st' => current_size st' <= self_size env
            | Raised e st' =>
                e = ParserError "Seek error, unable to go back!" /\
                exists t0 off0, t0 ∈ t :: tables /\
                  TableHeader.value env t0 "offset" = Some off0 /\
                  off0 * 8 < current_size st'
            end).
  { intros st1 Hst1. specialize (IH st1 Hst1).
    destruct (TrueTypeFontFile.emit_tables env tables st1) as [[] st'|e st']; [done|].
    destruct IH as (-> & t0 & off0 & Ht0 & H0). split; [done|].
    exists t0, off0. split; [by apply list_elem_of_further|done]. }
  destruct (Z.eqb_spec sz 0) as [->|Hne]; simpl negb; cbv iota.
  - apply Hnext. rewrite after_seek_current_size by lia. lia.
  - apply Hnext. unfold after_yield. simpl.
    rewrite after_seek_current_size by lia. lia.
Qed.

(** X2.  For a font whose directory and tables lie inside the stream,
    the only exception of the root parser's [createFields] is the seek
    error, and it is raised at a directory record whose table starts before
    the cursor: inside the directory, or inside a table produced before
    it. *)
Theorem createFields_raises (s : InputStream) (nb : Z) (tables : list Field)
    (st1 : FieldSetState) (e : Error) (st : FieldSetState) :
  uint16_at s 4 = Some nb ->
  (12 + 16 * nb) * 8 <= stream_size s ->
  read_records (Z.to_nat nb) "table_hdr[]" FTableHeader TableHeader.createFields
    header_produced = Done tables st1 ->
  Forall (in_stream (root_env s)) tables ->
  TrueTypeFontFile.createFields (root_env s) new_fieldset = Raised e st ->
  e = ParserError "Seek error, unable to go back!" /\
  exists t off, t ∈ tables /\ TableHeader.value (root_env s) t "offset" = Some off /\
                off * 8 < current_size st.
Proof.
  intros Hnb Hdir Hrec Hin Hrun.
  pose proof (uint16_at_nonneg _ _ _ Hnb) as Hnb0.
  destruct (directory_read nb tables st1 Hnb0 Hrec) as [Hcur1 _].
  destruct (with_keys_total (offset_key (root_env s)) tables st1) as [keyed Hkeys].
  { eapply Forall_impl; [exact Hin|]. intros t (off & _ & Hoff & _). by exists off. }
  assert (Hsort : sort_fields (offset_key (root_env s)) tables st1
                  = Done (map snd (sort_by_key keyed)) st1)
    by (unfold sort_fields, bind; by rewrite Hkeys).
  destruct (sort_fields_perm _ _ _ _ _ Hsort) as [_ Hperm].
  rewrite (createFields_after_sort s nb tables _ st1 Hnb Hrec Hsort) in Hrun.
  assert (Hin' : Forall (in_stream (root_env s)) (map snd (sort_by_key keyed)))
    by (by rewrite Hperm).
  pose proof (emit_tables_seek_only (root_env s) _ Hin' st1) as Hloop.
  change (self_size (root_env s)) with (stream_size s) in Hloop.
  specialize (Hloop ltac:(lia)).
  unfold bind at 1 in Hrun.
  destruct (TrueTypeFontFile.emit_tables (root_env s) (map snd (sort_by_key keyed)) st1)
    as [[] st2|e2 st2].
  - exfalso. revert Hrun. unfold bind, seekBit.
    destruct (Z.ltb_spec (stream_size s - current_size st2) 0); [lia|].
    destruct (0 <? _); [|done]. unfold yield_if, bind, yield, ret. done.
  - injection Hrun as <- <-. destruct Hloop as (-> & t & off & Ht & H).
    split; [done|]. exists t, off. split; [|done]. by rewrite <- Hperm.
Qed.

Lemma createFields_raises_witness :
  exists t off,
    t ∈ [table_hdr_0; table_hdr_1; table_hdr_2] /\
    TableHeader.value (root_env (stream_of font_200_50_120)) t "offset" = Some off /\
    off * 8 < current_size font_tables_indexed.
Proof.
  refine (proj2 (createFields_raises (stream_of font_200_50_120) 3
                   [table_hdr_0; table_hdr_1; table_hdr_2] font_tables_indexed
                   (ParserError "Seek error, unable to go back!") font_tables_indexed
                   _ _ _ _ _)).
  - vm_compute. reflexivity.
  - vm_compute. discriminate.
  - vm_compute. reflexivity.
  - repeat constructor.
    + exists 200, 4. split; [reflexivity|]. split; [reflexivity|].
      split; [by eexists|]. vm_compute. discriminate.
    + exists 50, 4. split; [reflexivity|]. split; [reflexivity|].
      split; [by eexists|]. vm_compute. discriminate.
    + exists 120, 4. split; [reflexivity|]. split; [reflexivity|].
      split; [by eexists|]. vm_compute. discriminate.
  - vm_compute. reflexivity.
Defined.

(** ** Name tables whose index lies inside the table *)

(** The fields of an index record that lies inside the stream can be
    decoded. *)
Lemma NameHeader_value_is_Some env e key :
  key ∈ ["platformID"; "encodingID"; "length"; "offset"] ->
  0 <= absolute_address env + address e ->
  (absolute_address env + address e) mod 8 = 0 ->
  absolute_address env + address e + 96 <= stream_size (stream env) ->
  is_Some (NameHeader.value env e key).
Proof.
  intros Hkey H0 Hal Hend.
  assert (Hread : forall pos, 0 <= pos <= 80 -> pos mod 8 = 0 ->
            is_Some (uint_be <$> readBytes (stream env)
                                   (absolute_address env + address e + pos) 2)).
  { intros pos Hpos Hp.
    destruct (readBytes_is_Some (stream env) (absolute_address env + address e + pos) 2)
      as [bs ->]; try lia; [|by eexists].
    rewrite Z.add_mod, Hal, Hp by lia. reflexivity. }
  unfold NameHeader.value, child_uint, field_uint, field_bytes, child_env.
  cbn [stream absolute_address].
  repeat (apply elem_of_cons in Hkey as [->|Hkey]); [..|by apply elem_of_nil in Hkey].
  - change (child_getitem NameHeader.createFields "platformID")
      with (Some (mkField "platformID" 0 16 FUInt16)).
    cbn [mbind option_bind address size]. change (16 / 8) with 2. by apply Hread.
  - change (child_getitem NameHeader.createFields "encodingID")
      with (Some (mkField "encodingID" 16 16 FUInt16)).
    cbn [mbind option_bind address size]. change (16 / 8) with 2. by apply Hread.
  - change (child_getitem NameHeader.createFields "length")
      with (Some (mkField "length" 64 16 FUInt16)).
    cbn [mbind option_bind address size]. change (16 / 8) with 2. by apply Hread.
  - change (child_getitem NameHeader.createFields "offset")
      with (Some (mkField "offset" 80 16 FUInt16)).
    cbn [mbind option_bind address size]. change (16 / 8) with 2. by apply Hread.
Qed.

Lemma record_readable_inside env e :
  0 <= absolute_address env + address e ->
  (absolute_address env + address e) mod 8 = 0 ->
  absolute_address env + address e + 96 <= stream_size (stream env) ->
  record_readable env e.
Proof.
  intros H0 Hal Hend.
  assert (Hval : forall key, key ∈ ["platformID"; "encodingID"; "length"; "offset"] ->
                   is_Some (NameHeader.value env e key))
    by (intros key Hkey; by apply NameHeader_value_is_Some).
  destruct (Hval "offset") as [eo Ho]; [set_solver|].
  destruct (Hval "length") as [el Hl]; [set_solver|].
  destruct (Hval "platformID") as [p Hp]; [set_solver|].
  destruct (Hval "encodingID") as [enc He]; [set_solver|].
  split.
  - exists (eo, el). by apply entry_pair_Some.
  - unfold NameHeader.getCharset. rewrite Hp. simpl.
    destruct (p =? 3); [|by eexists]. rewrite He. simpl. by eexists.
Qed.

(** One turn of the walk on a record that can be decoded never raises:
    the record is skipped when it starts before the cursor, so the seek
    goes forward.  The cursor stays inside the table when the string of the
    record does. *)
Lemma names_step_total env base last e st :
  record_readable env e ->
  string_inside env base e ->
  current_size st mod 8 = 0 ->
  current_size st <= self_size env ->
  base_offset env st = Some base ->
  exists last' st',
    names_step env last e st = Done last' st' /\ current_size st' <= self_size env.
Proof.
  intros [[[eo el] Hp] [cs Hcs]] Hin Hal Hcur Hbase.
  specialize (Hin eo el Hp).
  apply entry_pair_Some in Hp as [Ho Hl].
  pose proof (getCharset_value_nonneg _ _ _ _ Hl) as Hel.
  rewrite names_step_unfold, Ho, Hl.
  destruct (match last with Some l => pair_eqb l (eo, el) | None => false end);
    [by eexists _, _|].
  unfold base_offset in Hbase.
  destruct (lookup_field "offset" (fields st)) as [f|]; [|done]. simpl in Hbase.
  rewrite Hbase.
  destruct (Z.ltb_spec (eo + base) (current_size st / 8)) as [|Hge]; [by eexists _, _|].
  destruct (Z.ltb_spec ((eo + base) * 8 - current_size st) 0) as [Hlt|Hseek].
  { exfalso. pose proof (Z.div_mod (current_size st) 8). lia. }
  cbv zeta. rewrite Hcs.
  destruct (negb (el =? 0)); eexists _, _; (split; [reflexivity|]).
  - unfold after_yield. simpl. rewrite after_seek_current_size by lia. lia.
  - rewrite after_seek_current_size by lia. lia.
Qed.

Lemma names_walk_total env base entries :
  Forall (record_readable env) entries ->
  Forall (string_inside env base) entries ->
  forall last st,
    current_size st mod 8 = 0 ->
    current_size st <= self_size env ->
    base_offset env st = Some base ->
    exists st', names_walk env last entries st = Done tt st' /\
                current_size st' <= self_size env.
Proof.
  induction 1 as [|e entries He _ IH]; intros Hin last st Hal Hcur Hbase;
    [by exists st|].
  apply Forall_cons in Hin as [Hin1 Hin].
  destruct (names_step_total env base last e st He Hin1 Hal Hcur Hbase)
    as (last' & st1 & Hstep & Hcur1).
  rewrite names_walk_cons, Hstep.
  pose proof (names_step_forward _ _ _ _ _ _ Hstep) as (_ & Hal1 & Hpre).
  apply IH; [done|by apply Hal1|done|by eapply base_offset_prefix].
Qed.

(** X6.  A name table of format 0 whose index and strings lie inside the
    table, the table inside the stream, is parsed to completion whatever
    the order of its strings: strings that overlap, repeat or go backward
    are anomalies, and the seek in the walk never fails, because every
    record that starts before the cursor is skipped first.  The cursor ends
    inside the table. *)
Theorem parseNames_completes (env : FieldSetEnv) (count base : Z)
    (entries : list Field) (st1 : FieldSetState) :
  format_of env = Some 0 ->
  count_of env = Some count ->
  0 <= absolute_address env ->
  absolute_address env mod 8 = 0 ->
  (6 + 12 * count) * 8 <= self_size env ->
  absolute_address env + self_size env <= stream_size (stream env) ->
  base_offset env names_at_offset = Some base ->
  read_records (Z.to_nat count) "header[]" FNameHeader NameHeader.createFields
    names_at_offset = Done entries st1 ->
  Forall (string_inside env base) entries ->
  exists st, parseNames env new_fieldset = Done tt st /\ current_size st <= self_size env.
Proof.
  intros Hf Hc H0 Hal Hindex Hend Hbase Hrec Hinside.
  assert (Hcount : 0 <= count).
  { unfold count_of in Hc. destruct (readBytes _ _ _); simpl in Hc; [|done].
    injection Hc as <-. apply uint_be_nonneg. }
  rewrite parseNames_cases, Hf, Hc. change (negb (0 =? 0)) with false. cbv iota.
  unfold names_index_and_values.
  destruct (read_records_total (Z.to_nat count) "header[]" FNameHeader
              NameHeader.createFields _ NameHeader_createFields_run names_at_offset)
    as (entries' & st1' & Hrec' & Hcur & Hpre & _).
  rewrite Hrec in Hrec'. injection Hrec' as <- <-.
  destruct (read_records_placed _ _ _ _ _ NameHeader_createFields_run _ _ _ Hrec)
    as [Hlen Hplaced].
  assert (Hreadable : Forall (record_readable env) entries).
  { apply Forall_lookup. intros i e Hi.
    destruct (Hplaced i e Hi) as (Ha & _ & _). simpl in Ha.
    apply lookup_lt_Some in Hi. rewrite Hlen in Hi.
    assert (Z.of_nat i < count) by lia.
    apply record_readable_inside; rewrite Ha.
    - lia.
    - replace (absolute_address env + (48 + Z.of_nat i * 96))
        with (absolute_address env + (6 + Z.of_nat i * 12) * 8) by lia.
      rewrite Z.add_mod, Hal, Z.mod_mul by lia. reflexivity.
    - lia. }
  unfold bind at 1. rewrite Hrec.
  destruct (with_keys_total (fun entry => NameHeader.value env entry "offset") entries st1)
    as [keyed Hkeys].
  { eapply Forall_impl; [exact Hreadable|]. intros e [[[eo el] Hp] _].
    apply entry_pair_Some in Hp as [Ho _]. by exists eo. }
  assert (Hsort : sort_fields (fun entry => NameHeader.value env entry "offset") entries st1
                  = Done (map snd (sort_by_key keyed)) st1)
    by (unfold sort_fields, bind; by rewrite Hkeys).
  unfold bind at 1. rewrite Hsort.
  destruct (sort_fields_perm _ _ _ _ _ Hsort) as [_ Hperm].
  assert (Hcur1 : current_size st1 = (6 + count * 12) * 8).
  { rewrite Hcur, Z2Nat.id by lia. simpl. lia. }
  apply (names_walk_total env base).
  - by rewrite Hperm.
  - by rewrite Hperm.
  - rewrite Hcur1. apply Z.mod_mul. lia.
  - lia.
  - by eapply base_offset_prefix.
Qed.

Lemma parseNames_completes_witness :
  exists st,
    parseNames names_env new_fieldset = Done tt st /\
    current_size st <= self_size names_env.
Proof.
  apply (parseNames_completes names_env 3 42 [header_0; header_1; header_2] names_indexed);
    try reflexivity; try (vm_compute; discriminate).
  repeat constructor; intros eo el H; vm_compute in H; injection H as <- <-;
    vm_compute; discriminate.
Defined.

(** X20.  When the strings of the index records, taken in the order of
    the walk, follow each other without overlap inside the table and no
    record repeats the one before it, the walk completes without any
    anomaly and produces one string field for every record of nonzero
    length. *)
Theorem names_walk_clean (env : FieldSetEnv) (base : Z) (entries : list Field) :
  forall cur last st,
    current_size st = cur * 8 ->
    base_offset env st = Some base ->
    strings_in_order env base cur last entries ->
    exists st',
      names_walk env last entries st = Done tt st' /\
      log st' = log st /\
      current_size st' <= Z.max (current_size st) (self_size env) /\
      (count_strings (fields st')
       = count_strings (fields st) + length (nonempty_entries env entries))%nat.
Proof.
  induction entries as [|e entries IH]; intros cur last st Hcur Hbase Hord.
  - exists st. simpl. split; [done|]. split; [done|]. split; lia.
  - destruct Hord as (eo & el & Hp & Hlast & Hle & Hend & Hcs & Hrest).
    rewrite names_walk_cons, nonempty_entries_cons, length_app.
    assert (Hel : 0 <= el).
    { apply entry_pair_Some in Hp as [_ Hl]. by apply getCharset_value_nonneg in Hl. }
    assert (Hstep : exists st1,
              names_step env last e st = Done (Some (eo, el)) st1 /\
              current_size st1 = (eo + base + el) * 8 /\
              fields st `prefix_of` fields st1 /\ log st1 = log st /\
              (count_strings (fields st1)
               = count_strings (fields st) + length (nonempty_entries env [e]))%nat).
    { unfold nonempty_entries. simpl. rewrite Hp.
      destruct (Z.eqb_spec el 0) as [->|Hne]; simpl.
      - apply entry_pair_Some in Hp as [Ho Hl].
        rewrite names_step_unfold, Ho, Hl.
        assert (match last with Some l => pair_eqb l (eo, 0) | None => false end = false)
          as ->.
        { destruct last as [l|]; [|done].
          destruct (pair_eqb l (eo, 0)) eqn:E; [|done].
          apply pair_eqb_eq in E. congruence. }
        unfold base_offset in Hbase.
        destruct (lookup_field "offset" (fields st)) as [f|]; [|done]. simpl in Hbase.
        rewrite Hbase.
        destruct (Z.ltb_spec (eo + base) (current_size st / 8)) as [Hlt|_].
        { exfalso. rewrite Hcur, Z.div_mul in Hlt by lia. lia. }
        destruct (Z.ltb_spec ((eo + base) * 8 - current_size st) 0); [lia|].
        simpl. eexists. split; [reflexivity|].
        rewrite count_strings_after_seek, after_seek_log,
          after_seek_current_size by lia.
        repeat split; [lia|rewrite after_seek_fields; by apply prefix_app_r|lia].
      - destruct (Hcs Hne) as [cs Hcs'].
        rewrite (names_step_emit env last e st eo el base cs Hp Hne Hcs' Hlast Hbase)
          by lia.
        eexists. split; [reflexivity|]. simpl.
        split; [lia|]. split; [by apply prefix_app_r|]. split; [done|].
        rewrite count_strings_app, count_strings_app.
        match goal with |- context [count_strings [?f]] =>
          change (count_strings [f]) with 1%nat end.
        unfold padding_to. destruct (current_size st <? (eo + base) * 8);
          unfold count_strings; simpl; lia. }
    destruct Hstep as (st1 & -> & Hcur1 & Hpre & Hlog1 & Hcount1).
    destruct (IH (eo + base + el) (Some (eo, el)) st1 Hcur1
                (base_offset_prefix _ _ _ _ Hpre Hbase) Hrest)
      as (st' & Hwalk & Hlog & Hin & Hcount).
    exists st'. split; [exact Hwalk|]. split; [congruence|]. split; lia.
Qed.

Lemma names_walk_clean_witness :
  exists st',
    names_walk names_clean_env None [header_1; header_0] names_clean_indexed = Done tt st' /\
    log st' = log names_clean_indexed /\
    current_size st'
    <= Z.max (current_size names_clean_indexed) (self_size names_clean_env) /\
    (count_strings (fields st')
     = count_strings (fields names_clean_indexed)
       + length (nonempty_entries names_clean_env [header_1; header_0]))%nat.
Proof.
  apply (names_walk_clean names_clean_env 30 [header_1; header_0] 30 None
           names_clean_indexed); [reflexivity|reflexivity|].
  exists 0, 4. split; [reflexivity|]. split; [discriminate|]. split; [lia|].
  split; [vm_compute; discriminate|]. split; [intros _; by eexists|].
  exists 4, 2. split; [reflexivity|]. split; [discriminate|]. split; [lia|].
  split; [vm_compute; discriminate|]. split; [intros _; by eexists|exact I].
Defined.
